(** * MocaRedis: the Redis facade of moca_modules

    A shallow embedding of [src/moca_modules/moca_redis/MocaRedis.py].

    The class wraps an aioredis connection pool: every method builds one
    command (key prefixed with ["mr-"], value passed through [moca_dumps]),
    hands it to the driver and decodes the reply with [moca_loads].  The
    driver, the server behind it and the value codec are collaborators that
    live outside the class, so they enter the model as interfaces
    ([Driver], [Codec]); the methods themselves are transcribed statement
    by statement into a state-and-exception monad. *)

From Stdlib Require Import ZArith String List Lia.
From stdpp Require Import base option list strings gmap pretty.

Open Scope Z_scope.
Open Scope string_scope.
Set Warnings "-register-all".

(** ** Python-side data *)

(** Python [bytes]. *)
Definition bytes : Type := list Byte.byte.

(** Positional arguments a method passes to [redis.execute]: the facade
    sends [str] keys, [bytes] payloads and [int] indices / ttls. *)
Inductive Arg : Type :=
| AStr (s : string)
| ABytes (b : bytes)
| AInt (z : Z).

(** What [await redis.execute(...)] evaluates to: [None] (the no-data
    sentinel), a [bytes] object, an [int], or a [list] of replies. *)
Inductive Reply : Type :=
| RNone
| RBytes (b : bytes)
| RInt (z : Z)
| RList (items : list Reply).

(** Exceptions.  [TypeError] and [IndexError] are the two the interpreter
    itself can raise inside the class body (iterating a non-iterable,
    [keys[index]] out of range); everything a collaborator raises is an
    [Error] carrying its class name and message. *)
Inductive Exn : Type :=
| TypeError
| IndexError
| Error (cls msg : string).

Inductive Outcome (A : Type) : Type :=
| Ok (a : A)
| Raise (e : Exn).
Arguments Ok {A} a.
Arguments Raise {A} e.

(** One call of [redis.execute(command, *args)]. *)
Definition Wire : Type := string * list Arg.

(** ** Collaborators *)

(** [moca_dumps] / [moca_loads] (imported from [..moca_utils]).  Encoding
    is a function from values to [bytes]; decoding is applied by the class
    to whatever the driver returned, the sentinel included, and may raise.
    [PyNone] is the Python [None] seen as an application value. *)
Class Codec : Type := {
  Value : Type;
  PyNone : Value;
  dumps : Value -> bytes;
  loads : Reply -> Outcome Value;
}.

(** Keyword arguments of [aioredis.create_pool] as the class fills them. *)
Record PoolArgs (SSL : Type) : Type := {
  pa_address : string * Z;
  pa_db : Z;
  pa_password : option string;
  pa_minsize : Z;
  pa_maxsize : Z;
  pa_ssl : option SSL;
}.
Arguments pa_address {SSL} _.
Arguments pa_db {SSL} _.
Arguments pa_password {SSL} _.
Arguments pa_minsize {SSL} _.
Arguments pa_maxsize {SSL} _.
Arguments pa_ssl {SSL} _.

(** The aioredis driver together with the server it talks to.  [World] is
    everything outside the facade object.  [pool_get] / [pool_release] are
    the two halves of [async with pool.get() as redis]. *)
Class Driver : Type := {
  World : Type;
  Pool : Type;
  Conn : Type;
  SSLContext : Type;
  create_pool : PoolArgs SSLContext -> World -> Outcome Pool * World;
  pool_get : Pool -> World -> Outcome Conn * World;
  pool_release : Pool -> Conn -> World -> World;
  conn_execute : Conn -> string -> list Arg -> World -> Outcome Reply * World;
}.

(** ** The class *)

Section Object.
Context `{driver : Driver}.

(** Instance attributes. *)
Record MocaRedis : Type := {
  _host : string;
  _port : Z;
  _db : Z;
  _password : string;
  _minsize : Z;
  _maxsize : Z;
  _ssl : option SSLContext;
  _pool : option Pool;
}.

(** [__init__]: [minsize] and [maxsize] default to 1 and 10, [ssl] to
    [None]; the pool slot starts empty. *)
Definition __init__ (host : string) (port db : Z) (password : string)
    (minsize maxsize : Z) (ssl : option SSLContext) : MocaRedis :=
  {| _host := host; _port := port; _db := db; _password := password;
     _minsize := minsize; _maxsize := maxsize; _ssl := ssl;
     _pool := None |}.

Definition minsize_default : Z := 1.
Definition maxsize_default : Z := 10.

(** [str(i)] as an f-string renders an [int]. *)
Definition str_of_int (i : Z) : string := pretty i.

(** The [url] property. *)
Definition url (self : MocaRedis) : string :=
  "redis://" +:+ (if negb (_password self =? "")%string then ":" else "")
             +:+ _password self
  +:+ "@" +:+ _host self
  +:+ ":" +:+ str_of_int (_port self)
  +:+ "/" +:+ str_of_int (_db self).

Definition host (self : MocaRedis) : string := _host self.
Definition port (self : MocaRedis) : Z := _port self.
Definition db (self : MocaRedis) : Z := _db self.
Definition minsize (self : MocaRedis) : Z := _minsize self.
Definition maxsize (self : MocaRedis) : Z := _maxsize self.
Definition ssl (self : MocaRedis) : option SSLContext := _ssl self.

(** *** Program states and the method monad

    A method runs against the facade object and the world.  [st_wire]
    is a ghost log: each call of [redis.execute] appends the command and
    its arguments, oldest first, so that statements about what is
    transmitted can be made for an arbitrary driver. *)
Record State : Type := {
  st_self : MocaRedis;
  st_world : World;
  st_wire : list Wire;
}.

Definition with_world (w : World) (st : State) : State :=
  {| st_self := st_self st; st_world := w; st_wire := st_wire st |}.

Definition with_pool (p : option Pool) (st : State) : State :=
  {| st_self :=
       {| _host := _host (st_self st); _port := _port (st_self st);
          _db := _db (st_self st); _password := _password (st_self st);
          _minsize := _minsize (st_self st);
          _maxsize := _maxsize (st_self st);
          _ssl := _ssl (st_self st); _pool := p |};
     st_world := st_world st; st_wire := st_wire st |}.

Definition M (A : Type) : Type := State -> Outcome A * State.

Definition ret {A} (a : A) : M A := fun st => (Ok a, st).

Definition bind {A B} (m : M A) (k : A -> M B) : M B :=
  fun st =>
    match m st with
    | (Ok a, st') => k a st'
    | (Raise e, st') => (Raise e, st')
    end.

(** A pure computation that may raise. *)
Definition lift {A} (o : Outcome A) : M A := fun st => (o, st).

End Object.

Declare Scope method_scope.
Delimit Scope method_scope with method.
Notation "x <- m ;; k" := (bind m (fun x => k))
  (at level 100, m at next level, right associativity) : method_scope.
Notation "m ;; k" := (bind m (fun _ => k))
  (at level 100, right associativity) : method_scope.
Open Scope method_scope.

(** ** The methods *)

Section Methods.
Context `{codec : Codec} `{driver : Driver}.

(** [await create_pool((host, port), db=..., password=..., ...)] with
    the arguments both pool methods pass. *)
Definition pool_args (self : MocaRedis) : PoolArgs SSLContext :=
  {| pa_address := (_host self, _port self);
     pa_db := _db self;
     pa_password :=
       if negb (_password self =? "")%string then Some (_password self)
       else None;
     pa_minsize := _minsize self;
     pa_maxsize := _maxsize self;
     pa_ssl := _ssl self |}.

Definition await_create_pool : M Pool := fun st =>
  let '(r, w) := create_pool (pool_args (st_self st)) (st_world st) in
  (r, with_world w st).

(** Reading and assigning [self._pool]. *)
Definition read_pool : M (option Pool) := fun st =>
  (Ok (_pool (st_self st)), st).
Definition assign_pool (pool : Pool) : M unit := fun st =>
  (Ok tt, with_pool (Some pool) st).

Definition get_aio_pool : M Pool :=
  slot <- read_pool ;;
  match slot with
  | None =>
      pool <- await_create_pool ;;
      assign_pool pool ;;
      ret pool
  | Some pool => ret pool
  end.

Definition create_aio_pool : M Pool :=
  pool <- await_create_pool ;;
  slot <- read_pool ;;
  match slot with
  | None => assign_pool pool
  | Some _ => ret tt
  end ;;
  ret pool.

(** [async with pool.get() as redis: body]: the connection is handed
    back whether the body returns or raises. *)
Definition async_with {A} (pool : Pool) (body : Conn -> M A) : M A :=
  fun st =>
    match pool_get pool (st_world st) with
    | (Raise e, w) => (Raise e, with_world w st)
    | (Ok redis, w) =>
        let '(r, st') := body redis (with_world w st) in
        (r, with_world (pool_release pool redis (st_world st')) st')
    end.

(** [await redis.execute(command, *args)], logged on the wire. *)
Definition redis_execute (redis : Conn) (command : string)
    (args : list Arg) : M Reply := fun st =>
  let '(r, w) := conn_execute redis command args (st_world st) in
  (r, {| st_self := st_self st; st_world := w;
         st_wire := (st_wire st ++ [(command, args)])%list |}).

(** [execute]; no method of the class passes keyword arguments. *)
Definition execute (command : string) (args : list Arg) : M Reply :=
  pool <- get_aio_pool ;;
  async_with pool (fun redis =>
    result <- redis_execute redis command args ;;
    ret result).

(** [for x in xs: body(x)] for a body without [break]. *)
Fixpoint for_each {A} (xs : list A) (body : A -> M unit) : M unit :=
  match xs with
  | [] => ret tt
  | x :: rest => body x ;; for_each rest body
  end.

(** The parameter default [expiration: int = -1]. *)
Definition expiration_default : Z := -1.

Definition set (key : string) (value : Value) (expiration : Z) : M unit :=
  if (expiration =? -1)%Z then
    execute "SET" [AStr ("mr-" +:+ key); ABytes (dumps value)] ;;
    ret tt
  else
    execute "SETEX"
      [AStr ("mr-" +:+ key); AInt expiration; ABytes (dumps value)] ;;
    ret tt.

Definition set_multi (data : list (string * Value)) (expiration : Z)
    : M unit :=
  if (expiration =? -1)%Z then
    let tmp :=
      fold_left
        (fun (tmp : list Arg) value =>
           ((tmp ++ [AStr ("mr-" +:+ fst value)])
              ++ [ABytes (dumps (snd value))])%list)
        data [] in
    execute "MSET" tmp ;;
    ret tt
  else
    pool <- get_aio_pool ;;
    async_with pool (fun redis =>
      for_each data (fun value =>
        redis_execute redis "SETEX"
          [AStr ("mr-" +:+ fst value); AInt expiration;
           ABytes (dumps (snd value))] ;;
        ret tt)).

Definition get (key : string) (default : Value) : M Value :=
  data <- execute "GET" [AStr ("mr-" +:+ key)] ;;
  match data with
  | RNone => ret default
  | _ => lift (loads data)
  end.

(** The parameter default [default: Any = None]. *)
Definition get_default : Value := PyNone.

(** What a [for] loop or a comprehension gets out of a reply: the items
    of a [list], the integers of a [bytes] object; [None] and [int] are
    not iterable. *)
Definition py_iter (r : Reply) : Outcome (list Reply) :=
  match r with
  | RList items => Ok items
  | RBytes b => Ok (map (fun c => RInt (Z.of_N (Byte.to_N c))) b)
  | RNone | RInt _ => Raise TypeError
  end.

(** [keys[index]] for a non-negative [index]. *)
Definition subscript (keys : list string) (index : nat) : Outcome string :=
  match keys !! index with
  | Some key => Ok key
  | None => Raise IndexError
  end.

(** The loop of [get_multi].  In [result[keys[index]] = loads(data)] the
    right-hand side is evaluated before the subscript. *)
Fixpoint get_multi_loop (keys : list string) (data_list : list Reply)
    (index : nat) (result : gmap string Value)
    : Outcome (gmap string Value) :=
  match data_list with
  | [] => Ok result
  | data :: rest =>
      match data with
      | RNone =>
          match subscript keys index with
          | Ok key =>
              get_multi_loop keys rest (S index) (<[key := PyNone]> result)
          | Raise e => Raise e
          end
      | _ =>
          match loads data with
          | Ok v =>
              match subscript keys index with
              | Ok key =>
                  get_multi_loop keys rest (S index) (<[key := v]> result)
              | Raise e => Raise e
              end
          | Raise e => Raise e
          end
      end
  end.

Definition get_multi (keys : list string) : M (gmap string Value) :=
  data_list <-
    execute "MGET" (map (fun value => AStr ("mr-" +:+ value)) keys) ;;
  items <- lift (py_iter data_list) ;;
  lift (get_multi_loop keys items 0 ∅).

Definition rpush (key : string) (value : Value) : M unit :=
  execute "RPUSH" [AStr ("mr-" +:+ key); ABytes (dumps value)] ;;
  ret tt.

Definition lpush (key : string) (value : Value) : M unit :=
  execute "LPUSH" [AStr ("mr-" +:+ key); ABytes (dumps value)] ;;
  ret tt.

Definition rpop (key : string) : M Value :=
  data <- execute "RPOP" [AStr ("mr-" +:+ key)] ;;
  lift (loads data).

Definition lpop (key : string) : M Value :=
  data <- execute "LPOP" [AStr ("mr-" +:+ key)] ;;
  lift (loads data).

(** [[loads(item) for item in data]]. *)
Fixpoint loads_each (items : list Reply) : Outcome (list Value) :=
  match items with
  | [] => Ok []
  | item :: rest =>
      match loads item with
      | Ok v =>
          match loads_each rest with
          | Ok vs => Ok (v :: vs)
          | Raise e => Raise e
          end
      | Raise e => Raise e
      end
  end.

Definition lrange (key : string) (start end_ : Z) : M (list Value) :=
  data <- execute "LRANGE" [AStr ("mr-" +:+ key); AInt start; AInt end_] ;;
  items <- lift (py_iter data) ;;
  lift (loads_each items).

Definition lindex (key : string) (index : Z) : M Value :=
  data <- execute "LINDEX" [AStr ("mr-" +:+ key); AInt index] ;;
  lift (loads data).

Definition llen (key : string) : M Reply :=
  execute "LLEN" [AStr ("mr-" +:+ key)].

Definition ltrim (key : string) (start end_ : Z) : M unit :=
  execute "LTRIM" [AStr ("mr-" +:+ key); AInt start; AInt end_] ;;
  ret tt.

Definition delete (key : string) : M unit :=
  execute "DEL" [AStr ("mr-" +:+ key)] ;;
  ret tt.

Definition delete_multi (keys : list string) : M unit :=
  execute "DEL" (map (fun value => AStr ("mr-" +:+ value)) keys) ;;
  ret tt.

Definition flush_db : M unit :=
  execute "FLUSHDB" [AStr "ASYNC"] ;;
  ret tt.

Definition get_db_size : M Reply := execute "DBSIZE" [].

Definition get_last_save_time : M Reply := execute "LASTSAVE" [].

Definition save_db : M unit :=
  execute "BGSAVE" [] ;;
  ret tt.

Definition increment (key : string) : M Reply :=
  execute "INCR" [AStr ("mr-" +:+ key)].

Definition increment_by (key : string) (value : Z) : M Reply :=
  execute "INCRBY" [AStr ("mr-" +:+ key); AInt value].

Definition decrement (key : string) : M Reply :=
  execute "DECR" [AStr ("mr-" +:+ key)].

Definition decrement_by (key : string) (value : Z) : M Reply :=
  execute "DECRBY" [AStr ("mr-" +:+ key); AInt value].
End Methods.

(** ** The key-taking methods as one family

    Used to quantify over "any method that takes a logical key". *)

Section KeyOps.
Context `{codec : Codec} `{driver : Driver}.

Inductive KeyOp : Type :=
| OpSet (key : string) (value : Value) (expiration : Z)
| OpSetMulti (data : list (string * Value)) (expiration : Z)
| OpGet (key : string) (default : Value)
| OpGetMulti (keys : list string)
| OpRpush (key : string) (value : Value)
| OpLpush (key : string) (value : Value)
| OpRpop (key : string)
| OpLpop (key : string)
| OpLrange (key : string) (start end_ : Z)
| OpLindex (key : string) (index : Z)
| OpLlen (key : string)
| OpLtrim (key : string) (start end_ : Z)
| OpDelete (key : string)
| OpDeleteMulti (keys : list string)
| OpIncrement (key : string)
| OpIncrementBy (key : string) (value : Z)
| OpDecrement (key : string)
| OpDecrementBy (key : string) (value : Z).

(** Run the method, forgetting what it returns. *)
Definition call (op : KeyOp) : M unit :=
  match op with
  | OpSet key value expiration => set key value expiration
  | OpSetMulti data expiration => set_multi data expiration
  | OpGet key default => get key default ;; ret tt
  | OpGetMulti keys => get_multi keys ;; ret tt
  | OpRpush key value => rpush key value
  | OpLpush key value => lpush key value
  | OpRpop key => rpop key ;; ret tt
  | OpLpop key => lpop key ;; ret tt
  | OpLrange key start end_ => lrange key start end_ ;; ret tt
  | OpLindex key index => lindex key index ;; ret tt
  | OpLlen key => llen key ;; ret tt
  | OpLtrim key start end_ => ltrim key start end_
  | OpDelete key => delete key
  | OpDeleteMulti keys => delete_multi keys
  | OpIncrement key => increment key ;; ret tt
  | OpIncrementBy key value => increment_by key value ;; ret tt
  | OpDecrement key => decrement key ;; ret tt
  | OpDecrementBy key value => decrement_by key value ;; ret tt
  end.

(** The logical keys the caller supplied, in the order supplied. *)
Definition logical_keys (op : KeyOp) : list string :=
  match op with
  | OpSet key _ _ | OpGet key _ | OpRpush key _ | OpLpush key _
  | OpRpop key | OpLpop key | OpLrange key _ _ | OpLindex key _
  | OpLlen key | OpLtrim key _ _ | OpDelete key | OpIncrement key
  | OpIncrementBy key _ | OpDecrement key | OpDecrementBy key _ => [key]
  | OpSetMulti data _ => map fst data
  | OpGetMulti keys | OpDeleteMulti keys => keys
  end.
End KeyOps.

(** Every second element of a list, starting with the first. *)
Fixpoint evens {A} (l : list A) : list A :=
  match l with
  | [] => []
  | [a] => [a]
  | a :: _ :: rest => a :: evens rest
  end.

(** The arguments of a transmitted command that name keys, following the
    server's command table: all of them for MGET and DEL, every other one
    for MSET, none for the administrative commands, the first one for the
    remaining commands the class uses. *)
Definition wire_keys (c : Wire) : list Arg :=
  let '(command, args) := c in
  if (command =? "MGET")%string || (command =? "DEL")%string then args
  else if (command =? "MSET")%string then evens args
  else if (command =? "FLUSHDB")%string || (command =? "DBSIZE")%string
          || (command =? "INFO")%string || (command =? "LASTSAVE")%string
          || (command =? "BGSAVE")%string then []
  else take 1 args.

(** ** A reference server

    An in-memory stand-in for aioredis plus a Redis server, covering the
    string and list commands with the replies the server documents for
    them.  Time does not pass (a ttl is recorded, never fired).  [budget]
    injects a network fault: [Some n] lets [n] more commands through and
    fails every later one. *)

Module MemRedis.

Inductive Entry : Type :=
| EString (b : bytes) (ttl : option Z)
| EList (items : list bytes).

Record MemWorld : Type := {
  store : gmap string Entry;
  pools : nat;
  borrowed : nat;
  budget : option nat;
}.

(** How the driver puts an argument on the wire, as a key and as a
    payload. *)
Definition arg_key (a : Arg) : string :=
  match a with
  | AStr s => s
  | ABytes b => string_of_list_byte b
  | AInt z => pretty z
  end.

Definition arg_payload (a : Arg) : bytes :=
  match a with
  | AStr s => list_byte_of_string s
  | ABytes b => b
  | AInt z => list_byte_of_string (pretty z)
  end.

Definition OK : Reply := RBytes (list_byte_of_string "OK").

Definition reply_error {A} (msg : string) : Outcome A :=
  Raise (Error "ReplyError" msg).

Definition wrongtype {A} : Outcome A :=
  reply_error
    "WRONGTYPE Operation against a key holding the wrong kind of value".

Fixpoint mset_pairs (args : list Arg) : option (list (string * bytes)) :=
  match args with
  | [] => Some []
  | [_] => None
  | k :: v :: rest =>
      match mset_pairs rest with
      | Some kvs => Some ((arg_key k, arg_payload v) :: kvs)
      | None => None
      end
  end.

Definition mget_item (s : gmap string Entry) (k : Arg) : Reply :=
  match s !! arg_key k with
  | Some (EString b _) => RBytes b
  | _ => RNone
  end.

Definition push (at_tail : bool) (s : gmap string Entry) (k : Arg)
    (vs : list Arg) : Outcome Reply * gmap string Entry :=
  let add (old : list bytes) :=
    if at_tail then (old ++ map arg_payload vs)%list
    else (rev (map arg_payload vs) ++ old)%list in
  match s !! arg_key k with
  | Some (EString _ _) => (wrongtype, s)
  | Some (EList old) =>
      (Ok (RInt (Z.of_nat (length (add old)))),
       <[arg_key k := EList (add old)]> s)
  | None =>
      (Ok (RInt (Z.of_nat (length (add [])))),
       <[arg_key k := EList (add [])]> s)
  end.

Definition put_list (k : string) (items : list bytes)
    (s : gmap string Entry) : gmap string Entry :=
  match items with
  | [] => base.delete k s
  | _ => <[k := EList items]> s
  end.

Definition pop (at_tail : bool) (s : gmap string Entry) (k : Arg)
    : Outcome Reply * gmap string Entry :=
  match s !! arg_key k with
  | Some (EString _ _) => (wrongtype, s)
  | None => (Ok RNone, s)
  | Some (EList items) =>
      if at_tail then
        match rev items with
        | [] => (Ok RNone, s)
        | x :: front => (Ok (RBytes x), put_list (arg_key k) (rev front) s)
        end
      else
        match items with
        | [] => (Ok RNone, s)
        | x :: back => (Ok (RBytes x), put_list (arg_key k) back s)
        end
  end.

Definition run_command (command : string) (args : list Arg)
    (s : gmap string Entry) : Outcome Reply * gmap string Entry :=
  if (command =? "SET")%string then
    match args with
    | [k; v] => (Ok OK, <[arg_key k := EString (arg_payload v) None]> s)
    | _ => (reply_error "ERR syntax error", s)
    end
  else if (command =? "SETEX")%string then
    match args with
    | [k; AInt ttl; v] =>
        if (ttl <=? 0)%Z then
          (reply_error "ERR invalid expire time in 'setex' command", s)
        else
          (Ok OK, <[arg_key k := EString (arg_payload v) (Some ttl)]> s)
    | [_; _; _] =>
        (reply_error "ERR value is not an integer or out of range", s)
    | _ =>
        (reply_error "ERR wrong number of arguments for 'setex' command", s)
    end
  else if (command =? "MSET")%string then
    match args, mset_pairs args with
    | _ :: _, Some kvs =>
        (Ok OK,
         fold_left (fun m kv => <[fst kv := EString (snd kv) None]> m) kvs s)
    | _, _ =>
        (reply_error "ERR wrong number of arguments for 'mset' command", s)
    end
  else if (command =? "GET")%string then
    match args with
    | [k] =>
        match s !! arg_key k with
        | None => (Ok RNone, s)
        | Some (EString b _) => (Ok (RBytes b), s)
        | Some (EList _) => (wrongtype, s)
        end
    | _ => (reply_error "ERR wrong number of arguments for 'get' command", s)
    end
  else if (command =? "MGET")%string then
    match args with
    | _ :: _ => (Ok (RList (map (mget_item s) args)), s)
    | [] =>
        (reply_error "ERR wrong number of arguments for 'mget' command", s)
    end
  else if (command =? "DEL")%string then
    match args with
    | _ :: _ =>
        (Ok (RInt (Z.of_nat
               (length (filter (fun k => is_Some (s !! k))
                          (remove_dups (map arg_key args)))))),
         fold_left (fun m k => base.delete (arg_key k) m) args s)
    | [] =>
        (reply_error "ERR wrong number of arguments for 'del' command", s)
    end
  else if (command =? "RPUSH")%string then
    match args with
    | k :: v :: vs => push true s k (v :: vs)
    | _ =>
        (reply_error "ERR wrong number of arguments for 'rpush' command", s)
    end
  else if (command =? "LPUSH")%string then
    match args with
    | k :: v :: vs => push false s k (v :: vs)
    | _ =>
        (reply_error "ERR wrong number of arguments for 'lpush' command", s)
    end
  else if (command =? "RPOP")%string then
    match args with
    | [k] => pop true s k
    | _ => (reply_error "ERR syntax error", s)
    end
  else if (command =? "LPOP")%string then
    match args with
    | [k] => pop false s k
    | _ => (reply_error "ERR syntax error", s)
    end
  else (reply_error "ERR unknown command", s).
Arguments run_command : simpl never.

Definition mem_create_pool (_ : PoolArgs unit) (w : MemWorld)
    : Outcome nat * MemWorld :=
  (Ok (pools w),
   {| store := store w; pools := S (pools w); borrowed := borrowed w;
      budget := budget w |}).

Definition mem_pool_get (pool : nat) (w : MemWorld)
    : Outcome nat * MemWorld :=
  (Ok pool,
   {| store := store w; pools := pools w; borrowed := S (borrowed w);
      budget := budget w |}).

Definition mem_pool_release (pool conn : nat) (w : MemWorld) : MemWorld :=
  {| store := store w; pools := pools w; borrowed := pred (borrowed w);
     budget := budget w |}.

Definition mem_conn_execute (conn : nat) (command : string)
    (args : list Arg) (w : MemWorld) : Outcome Reply * MemWorld :=
  match budget w with
  | Some O => (Raise (Error "ConnectionClosedError" "Connection lost"), w)
  | b =>
      let '(r, s) := run_command command args (store w) in
      (r, {| store := s; pools := pools w; borrowed := borrowed w;
             budget := pred <$> b |})
  end.

#[export] Instance mem_driver : Driver := {|
  World := MemWorld;
  Pool := nat;
  Conn := nat;
  SSLContext := unit;
  create_pool := mem_create_pool;
  pool_get := mem_pool_get;
  pool_release := mem_pool_release;
  conn_execute := mem_conn_execute;
|}.

(** A server holding [s], reached over a healthy link. *)
Definition serving (s : gmap string Entry) : MemWorld :=
  {| store := s; pools := 0; borrowed := 0; budget := None |}.

(** The same server behind a link that drops after [n] commands. *)
Definition flaky (n : nat) (s : gmap string Entry) : MemWorld :=
  {| store := s; pools := 0; borrowed := 0; budget := Some n |}.

(** The link lets at least [n] more commands through. *)
Definition link_allows (n : nat) (w : MemWorld) : Prop :=
  match budget w with
  | None => True
  | Some b => (n ≤ b)%nat
  end.

End MemRedis.

(** A codec for running examples: application values are [None] or raw
    [bytes], stored as they are. *)
Module RawCodec.

Definition raw_dumps (v : option bytes) : bytes :=
  match v with
  | Some b => b
  | None => []
  end.

Definition raw_loads (r : Reply) : Outcome (option bytes) :=
  match r with
  | RNone => Ok None
  | RBytes b => Ok (Some b)
  | _ => Raise (Error "UnpicklingError" "not a bytes object")
  end.

#[export] Instance raw_codec : Codec := {|
  Value := option bytes;
  PyNone := None;
  dumps := raw_dumps;
  loads := raw_loads;
|}.

End RawCodec.

(** A freshly constructed facade in front of the reference server. *)
Module Fixture.
Import MemRedis RawCodec.

Definition facade : MocaRedis (driver := mem_driver) :=
  __init__ "localhost" 6379 0 "" minsize_default maxsize_default None.

Definition boot (w : MemWorld) : State (driver := mem_driver) :=
  {| st_self := facade; st_world := w; st_wire := [] |}.

Definition b (s : string) : bytes := list_byte_of_string s.

Definition text (s : string) : Value := Some (b s).
End Fixture.

(** ** Vocabulary for the properties *)

Section Vocabulary.
Context `{codec : Codec} `{driver : Driver}.

(** The commands a run of [m] from [st] appends to the wire. *)
Definition issued {A} (m : M A) (st : State) : list Wire :=
  drop (length (st_wire st)) (st_wire (m st).2).

(** [m] transmits exactly [c], unless it raises before anything is sent
    (no pool could be created, or the pool handed out no connection). *)
Definition transmits_one {A} (m : M A) (st : State) (c : Wire) : Prop :=
  st_wire (m st).2 = (st_wire st ++ [c])%list
  ∨ (st_wire (m st).2 = st_wire st ∧ ∃ e, (m st).1 = Raise e).

(** The value the loop of [get_multi] stores for a reply item. *)
Definition decoded (d : Reply) (v : Value) : Prop :=
  match d with
  | RNone => v = PyNone
  | _ => loads d = Ok v
  end.

(** A continuation that only computes on the reply. *)
Definition pure_cont {A B} (k : A → M B) : Prop := ∀ a st, (k a st).2 = st.

(** The physical key for a logical one. *)
Definition namespaced (key : string) : Arg := AStr ("mr-" +:+ key).

(** Namespaced keys and encoded values of all pairs, in input order. *)
Definition mset_args (data : list (string * Value)) : list Arg :=
  flat_map (fun kv => [namespaced kv.1; ABytes (dumps kv.2)]) data.

(** One expiring write per pair, in input order. *)
Definition setex_commands (data : list (string * Value)) (ttl : Z)
    : list Wire :=
  map (fun kv => ("SETEX", [namespaced kv.1; AInt ttl; ABytes (dumps kv.2)]))
    data.

(** Storing pairs into a dict one after the other, later ones on top. *)
Definition dict_of (pairs : list (string * Value))
    (result : gmap string Value) : gmap string Value :=
  fold_left (fun m kv => <[kv.1 := kv.2]> m) pairs result.

(** An expiring write whose ttl is [-1]. *)
Definition setex_minus_one (c : Wire) : Prop :=
  ∃ key payload, c = ("SETEX", [key; AInt (-1); payload]).
End Vocabulary.

(** A driver that replays a script of outcomes, one per command, for
    exercising the methods on replies of any shape. *)
Module Scripted.

Definition scripted_conn_execute (redis : unit) (command : string)
    (args : list Arg) (script : list (Outcome Reply))
    : Outcome Reply * list (Outcome Reply) :=
  match script with
  | [] => (Raise (Error "ConnectionClosedError" "Connection lost"), [])
  | outcome :: rest => (outcome, rest)
  end.

Definition scripted_driver : Driver := {|
  World := list (Outcome Reply);
  Pool := unit;
  Conn := unit;
  SSLContext := unit;
  create_pool := fun _ script => (Ok tt, script);
  pool_get := fun _ script => (Ok tt, script);
  pool_release := fun _ _ script => script;
  conn_execute := scripted_conn_execute;
|}.

Definition replay (script : list (Outcome Reply))
    : State (driver := scripted_driver) :=
  {| st_self :=
       __init__ (driver := scripted_driver)
         "localhost" 6379 0 "" minsize_default maxsize_default None;
     st_world := script;
     st_wire := [] |}.

End Scripted.

(** ** The connection probe *)

Section Probe.
Context `{codec : Codec} `{driver : Driver}.

(** [test_con].  [random_string] stands for the result of
    [get_random_string(32)] and [zero] for the Python value [0] that the
    method stores. *)
Definition test_con (random_string : string) (zero : Value) : M unit :=
  let key := "moca_modules_connection_test_key" +:+ random_string in
  set key zero expiration_default ;;
  delete key.
End Probe.

(** ** Vocabulary for whole-object and whole-run properties *)

Section Frames.
Context `{codec : Codec} `{driver : Driver}.

(** The object with its pool slot assigned. *)
Definition fill_pool (self : MocaRedis) (pool : Pool) : MocaRedis :=
  {| _host := _host self; _port := _port self; _db := _db self;
     _password := _password self; _minsize := _minsize self;
     _maxsize := _maxsize self; _ssl := _ssl self; _pool := Some pool |}.

(** The only change a method may make to the object: none, or assigning
    a pool to the empty slot. *)
Definition self_step (a b : MocaRedis) : Prop :=
  b = a ∨ (_pool a = None ∧ ∃ pool, b = fill_pool a pool).

Definition object_step (st st' : State) : Prop :=
  self_step (st_self st) (st_self st').

(** Every run of [m] relates its start state to its end state by [R]. *)
Definition respects (R : State → State → Prop) {A} (m : M A) : Prop :=
  ∀ st, R st (m st).2.

(** A relation that the building blocks of the methods keep: looking up
    the pool, the connection bracket around a body that keeps it, and one
    command on a connection. *)
Record Stable (R : State → State → Prop) : Prop := {
  stable_refl : ∀ st, R st st;
  stable_trans : ∀ st1 st2 st3, R st1 st2 → R st2 st3 → R st1 st3;
  stable_pool : respects R get_aio_pool;
  stable_bracket :
    ∀ A pool (body : Conn → M A),
      (∀ redis, respects R (body redis)) →
      respects R (async_with pool body);
  stable_command :
    ∀ redis command args, respects R (redis_execute redis command args);
}.

(** A run of [m] that returns leaves the pool slot assigned. *)
Definition ok_fills {A} (m : M A) : Prop :=
  ∀ st u, (m st).1 = Ok u → is_Some (_pool (st_self (m st).2)).

(** A caller issuing key-taking calls one after the other, carrying on
    after a call that raised. *)
Definition run_all (ops : list KeyOp) (st : State) : State :=
  fold_left (fun st op => (call op st).2) ops st.

(** Each reply item decodes to the value at the same position. *)
Definition all_decode (items : list Reply) (vs : list Value) : Prop :=
  Forall2 (fun item v => loads item = Ok v) items vs.

(** Decoding what encoding produced gives the value back. *)
Definition codec_roundtrip (v : Value) : Prop :=
  loads (RBytes (dumps v)) = Ok v.
End Frames.

Section ServerFrames.
Import MemRedis.
Context `{codec : Codec}.

(** Pools the server has handed out, counting one more while the
    object's slot is still empty. *)
Definition pool_potential (st : State (driver := mem_driver)) : nat :=
  (pools (st_world st)
   + match _pool (st_self st) with Some _ => 0 | None => 1 end)%nat.

Definition same_potential (st st' : State (driver := mem_driver)) : Prop :=
  pool_potential st' = pool_potential st.

Definition same_borrowed (st st' : State (driver := mem_driver)) : Prop :=
  borrowed (st_world st') = borrowed (st_world st).

(** Two states that the server and the wire cannot tell apart. *)
Definition same_traffic (a b : State (driver := mem_driver)) : Prop :=
  store (st_world a) = store (st_world b)
  ∧ budget (st_world a) = budget (st_world b)
  ∧ st_wire a = st_wire b.

(** What [get] returns, read off the store. *)
Definition get_view (s : gmap string Entry) (key : string)
    (default : Value) : Outcome Value :=
  match s !! ("mr-" +:+ key) with
  | None => Ok default
  | Some (EString payload _) => loads (RBytes payload)
  | Some (EList _) => wrongtype
  end.
End ServerFrames.

(** ** Vocabulary for what reaches the driver *)

Section Delivery.
Context `{codec : Codec} `{driver : Driver}.

(** The result of handing a list of commands to the driver: the outcome,
    the world afterwards, and how many commands were handed over. *)
Record Driven : Type := {
  d_outcome : Outcome unit;
  d_world : World;
  d_sent : nat;
}.

(** Hand [cmds] to the driver one after the other on the connection
    [redis], going on after a reply and stopping behind the first command
    that raises. *)
Fixpoint drive (redis : Conn) (cmds : list Wire) (w : World) : Driven :=
  match cmds with
  | [] => {| d_outcome := Ok tt; d_world := w; d_sent := 0 |}
  | c :: rest =>
      match conn_execute redis c.1 c.2 w with
      | (Ok _, w') =>
          let d := drive redis rest w' in
          {| d_outcome := d_outcome d; d_world := d_world d;
             d_sent := S (d_sent d) |}
      | (Raise e, w') =>
          {| d_outcome := Raise e; d_world := w'; d_sent := 1 |}
      end
  end.

(** The state a method leaves when it got the pool (state [st1]),
    borrowed [redis] from [pool], and the driver took [d_sent] of
    [cmds]: the connection is back, the wire has those commands. *)
Definition delivered (st st1 : State) (pool : Pool) (redis : Conn)
    (cmds : list Wire) (d : Driven) : State :=
  {| st_self := st_self st1;
     st_world := pool_release pool redis (d_world d);
     st_wire := (st_wire st ++ take (d_sent d) cmds)%list |}.

(** [m], run from [st], is exactly: get the pool, borrow one connection,
    hand [cmds] to the driver, give the connection back.  It returns when
    the driver replied to every command; an exception of the driver, at
    whichever step, is its outcome. *)
Definition performs (m : M unit) (st : State) (cmds : list Wire) : Prop :=
  match get_aio_pool st with
  | (Raise e, st1) => m st = (Raise e, st1)
  | (Ok pool, st1) =>
      match pool_get pool (st_world st1) with
      | (Raise e, w) => m st = (Raise e, with_world w st1)
      | (Ok redis, w) =>
          m st = (d_outcome (drive redis cmds w),
                  delivered st st1 pool redis cmds (drive redis cmds w))
      end
  end.

(** The same for a method that goes on to compute on the replies: the
    state it leaves is the one above, and an exception of the driver is
    its outcome. *)
Definition hands_over {A} (m : M A) (st : State) (cmds : list Wire)
    : Prop :=
  match get_aio_pool st with
  | (Raise e, st1) => m st = (Raise e, st1)
  | (Ok pool, st1) =>
      match pool_get pool (st_world st1) with
      | (Raise e, w) => m st = (Raise e, with_world w st1)
      | (Ok redis, w) =>
          (m st).2 = delivered st st1 pool redis cmds (drive redis cmds w)
          ∧ ∀ e, d_outcome (drive redis cmds w) = Raise e →
                 (m st).1 = Raise e
      end
  end.

(** The commands, in order, that a call of each key-taking method
    amounts to, written out per method for use in statements; that the
    methods hand the driver exactly these is proved below. *)
Definition commands_of (op : KeyOp) : list Wire :=
  match op with
  | OpSet key value expiration =>
      if (expiration =? -1)%Z then
        [("SET", [namespaced key; ABytes (dumps value)])]
      else
        [("SETEX", [namespaced key; AInt expiration; ABytes (dumps value)])]
  | OpSetMulti data expiration =>
      if (expiration =? -1)%Z then [("MSET", mset_args data)]
      else setex_commands data expiration
  | OpGet key _ => [("GET", [namespaced key])]
  | OpGetMulti keys => [("MGET", map namespaced keys)]
  | OpRpush key value => [("RPUSH", [namespaced key; ABytes (dumps value)])]
  | OpLpush key value => [("LPUSH", [namespaced key; ABytes (dumps value)])]
  | OpRpop key => [("RPOP", [namespaced key])]
  | OpLpop key => [("LPOP", [namespaced key])]
  | OpLrange key start end_ =>
      [("LRANGE", [namespaced key; AInt start; AInt end_])]
  | OpLindex key index => [("LINDEX", [namespaced key; AInt index])]
  | OpLlen key => [("LLEN", [namespaced key])]
  | OpLtrim key start end_ =>
      [("LTRIM", [namespaced key; AInt start; AInt end_])]
  | OpDelete key => [("DEL", [namespaced key])]
  | OpDeleteMulti keys => [("DEL", map namespaced keys)]
  | OpIncrement key => [("INCR", [namespaced key])]
  | OpIncrementBy key value => [("INCRBY", [namespaced key; AInt value])]
  | OpDecrement key => [("DECR", [namespaced key])]
  | OpDecrementBy key value => [("DECRBY", [namespaced key; AInt value])]
  end.
End Delivery.

(** ** The pool methods around their suspension point

    Both pool methods suspend in [await create_pool(...)]; other
    coroutines of the event loop run meanwhile.  [get_aio_pool] as defined
    above is a call that nobody interleaves with; the pieces below are
    what runs before and after the suspension. *)

Section Overlap.
Context `{driver : Driver}.

(** [get_aio_pool] up to the await: the test [self._pool is None]. *)
Definition get_aio_pool_test : M (option Pool) := read_pool.

(** [get_aio_pool] after the await: [self._pool = pool; return pool].
    The slot is not looked at again. *)
Definition get_aio_pool_resume (pool : Pool) : M Pool :=
  assign_pool pool ;;
  ret pool.

(** [create_aio_pool] after the await: the slot is tested here, and
    assigned only if empty. *)
Definition create_aio_pool_resume (pool : Pool) : M Pool :=
  slot <- read_pool ;;
  match slot with
  | None => assign_pool pool
  | Some _ => ret tt
  end ;;
  ret pool.

(** Two calls of [get_aio_pool] on one object, the second made while the
    first is suspended; the first call's pool is ready first.  The result
    is the slot as the first call left it, then what either call
    returned. *)
Definition overlapping_get_aio_pool : M (option Pool * Pool * Pool) :=
  first_test <- get_aio_pool_test ;;
  match first_test with
  | Some pool =>
      second <- get_aio_pool ;;
      ret (Some pool, pool, second)
  | None =>
      second_test <- get_aio_pool_test ;;
      pool1 <- await_create_pool ;;
      first <- get_aio_pool_resume pool1 ;;
      slot <- read_pool ;;
      match second_test with
      | Some pool => ret (slot, first, pool)
      | None =>
          pool2 <- await_create_pool ;;
          second <- get_aio_pool_resume pool2 ;;
          ret (slot, first, second)
      end
  end.
End Overlap.

(** A driver whose server refuses every connection, for the paths on
    which no pool can be made. *)
Module Refusing.

Definition refused {A} : Outcome A :=
  Raise (Error "ConnectionRefusedError" "Connect call failed").

Definition refusing_driver : Driver := {|
  World := unit;
  Pool := unit;
  Conn := unit;
  SSLContext := unit;
  create_pool := fun _ w => (refused, w);
  pool_get := fun _ w => (refused, w);
  pool_release := fun _ _ w => w;
  conn_execute := fun _ _ _ w => (refused, w);
|}.

Definition unreachable : State (driver := refusing_driver) :=
  {| st_self :=
       __init__ (driver := refusing_driver)
         "localhost" 6379 0 "" minsize_default maxsize_default None;
     st_world := tt;
     st_wire := [] |}.

End Refusing.

(** ** The decoder as the specification describes it *)

Section SpecCodec.
Variable V : Type.
Variable none : V.
Variable encode : V → bytes.
Variable decode : Reply → Outcome V.

(** Modelled from the spec: [moca_loads], defined in [moca_utils], which
    is not among the sources.  The specification says one thing about
    it beyond being the inverse of the encoder: applied to the "no data"
    sentinel it gives none ("returns decoded none if list empty
    (decoding a no-data sentinel)", "or decoded none if out of range").
    On every other reply it is the opaque external decoder [decode]. *)
Definition moca_loads (data : Reply) : Outcome V :=
  match data with
  | RNone => Ok none
  | _ => decode data
  end.

(** Modelled from the spec: the codec whose decoder is [moca_loads]; the
    encoder stays the opaque external one. *)
Definition spec_codec : Codec := {|
  Value := V;
  PyNone := none;
  dumps := encode;
  loads := moca_loads;
|}.
End SpecCodec.

(** * Properties *)

Section PoolProps.
Context `{driver : Driver}.

Lemma get_aio_pool_stored (st : State) (p : Pool) :
  _pool (st_self st) = Some p → get_aio_pool st = (Ok p, st).
Proof.
  intros Hp. unfold get_aio_pool, bind, read_pool. now rewrite Hp.
Qed.

Lemma get_aio_pool_empty (st : State) :
  _pool (st_self st) = None →
  get_aio_pool st =
    match create_pool (pool_args (st_self st)) (st_world st) with
    | (Ok p, w) => (Ok p, with_pool (Some p) (with_world w st))
    | (Raise e, w) => (Raise e, with_world w st)
    end.
Proof.
  intros Hp. unfold get_aio_pool, bind, read_pool, await_create_pool.
  rewrite Hp.
  destruct (create_pool _ _) as [[p | e] w]; reflexivity.
Qed.

Lemma create_aio_pool_run (st : State) :
  create_aio_pool st =
    match create_pool (pool_args (st_self st)) (st_world st) with
    | (Ok p, w) =>
        (Ok p,
         match _pool (st_self st) with
         | None => with_pool (Some p) (with_world w st)
         | Some _ => with_world w st
         end)
    | (Raise e, w) => (Raise e, with_world w st)
    end.
Proof.
  unfold create_aio_pool, bind, read_pool, await_create_pool.
  destruct (create_pool _ _) as [[p | e] w]; [| reflexivity].
  cbn. destruct (_pool (st_self st)); reflexivity.
Qed.

Lemma get_aio_pool_wire (st : State) :
  st_wire (get_aio_pool st).2 = st_wire st.
Proof.
  destruct (_pool (st_self st)) as [p |] eqn:Hp.
  - now rewrite (get_aio_pool_stored st p Hp).
  - rewrite (get_aio_pool_empty st Hp).
    destruct (create_pool _ _) as [[p | e] w]; reflexivity.
Qed.

Lemma get_aio_pool_fills (st st' : State) (p : Pool) :
  get_aio_pool st = (Ok p, st') → _pool (st_self st') = Some p.
Proof.
  destruct (_pool (st_self st)) as [q |] eqn:Hq.
  - rewrite (get_aio_pool_stored st q Hq). intros [= <- <-]. exact Hq.
  - rewrite (get_aio_pool_empty st Hq).
    destruct (create_pool _ _) as [[q | e] w]; intros [= <- <-].
    reflexivity.
Qed.


(** C8 (as the code has it).  With a non-empty password the url is
    [redis://:password@host:port/db]; with the empty password the
    [:password] part is left out and the [@] stays:
    [redis://@host:port/db]. *)
Theorem url_form (self : MocaRedis) :
  (_password self ≠ "" →
   url self =
     "redis://:" +:+ _password self +:+ "@" +:+ _host self +:+ ":"
       +:+ str_of_int (_port self) +:+ "/" +:+ str_of_int (_db self))
  ∧ (_password self = "" →
     url self =
       "redis://@" +:+ _host self +:+ ":" +:+ str_of_int (_port self)
         +:+ "/" +:+ str_of_int (_db self)).
Proof.
  unfold url. split; intros Hpw.
  - destruct (String.eqb_spec (_password self) "") as [E | _];
      [contradiction | reflexivity].
  - rewrite Hpw. reflexivity.
Qed.
End PoolProps.

Section WireProps.
Context `{codec : Codec} `{driver : Driver}.

Lemma issued_app {A} (m : M A) (st : State) (sent : list Wire) :
  st_wire (m st).2 = (st_wire st ++ sent)%list → issued m st = sent.
Proof. unfold issued. intros ->. apply drop_app_length. Qed.

Lemma issued_nil {A} (m : M A) (st : State) :
  st_wire (m st).2 = st_wire st → issued m st = [].
Proof.
  intros Hw. apply issued_app. now rewrite Hw, app_nil_r.
Qed.

(** [execute] either raises with nothing sent, or sends its command. *)
Lemma execute_cases (command : string) (args : list Arg) (st : State) :
  (∃ e, (execute command args st).1 = Raise e
        ∧ st_wire (execute command args st).2 = st_wire st)
  ∨ st_wire (execute command args st).2
    = (st_wire st ++ [(command, args)])%list.
Proof.
  unfold execute, bind.
  pose proof (get_aio_pool_wire st) as Hw.
  destruct (get_aio_pool st) as [[pool | e] st1]; cbn in Hw.
  - unfold async_with, redis_execute, ret, with_world. cbn.
    destruct (pool_get pool (st_world st1)) as [[redis | e] w1]; cbn.
    + destruct (conn_execute redis command args w1) as [[r | e] w2];
        cbn; right; now rewrite Hw.
    + left. eauto.
  - left. eauto.
Qed.

Lemma bind_pure_state {A B} (m : M A) (k : A → M B) (st : State) :
  pure_cont k → (bind m k st).2 = (m st).2.
Proof.
  intros Hk. unfold bind. destruct (m st) as [[a | e] st1]; cbn; auto.
Qed.

Lemma bind_raise {A B} (m : M A) (k : A → M B) (st : State) (e : Exn) :
  (m st).1 = Raise e → (bind m k st).1 = Raise e.
Proof.
  unfold bind. destruct (m st) as [[a | e'] st1]; cbn; congruence.
Qed.

Lemma transmits_one_execute (command : string) (args : list Arg)
    (st : State) :
  transmits_one (execute command args) st (command, args).
Proof.
  unfold transmits_one.
  destruct (execute_cases command args st) as [(e & He & Hw) | Hw]; eauto.
Qed.

Lemma transmits_one_bind {A B} (m : M A) (k : A → M B) (st : State)
    (c : Wire) :
  transmits_one m st c → pure_cont k → transmits_one (bind m k) st c.
Proof.
  unfold transmits_one. intros Hm Hk. rewrite bind_pure_state by exact Hk.
  destruct Hm as [Hw | (Hw & e & He)]; [now left | right].
  split; [exact Hw |]. exists e. now apply bind_raise.
Qed.

Lemma transmits_one_issued {A} (m : M A) (st : State) (c : Wire) :
  transmits_one m st c → issued m st = [c] ∨ issued m st = [].
Proof.
  intros [Hw | [Hw _]]; [left; now apply issued_app |
                         right; now apply issued_nil].
Qed.

Ltac pure_cont_tac :=
  intros ? ?; unfold bind, lift, ret; cbn;
  repeat case_match; reflexivity.

Ltac one_command :=
  repeat (apply transmits_one_bind; [| pure_cont_tac]);
  apply transmits_one_execute.

Lemma set_transmits (key : string) (value : Value) (expiration : Z)
    (st : State) :
  transmits_one (set key value expiration) st
    (if (expiration =? -1)%Z then
       ("SET", [namespaced key; ABytes (dumps value)])
     else
       ("SETEX", [namespaced key; AInt expiration; ABytes (dumps value)])).
Proof.
  unfold set, namespaced. destruct (expiration =? -1)%Z; one_command.
Qed.

Lemma build_tmp (data : list (string * Value)) (acc : list Arg) :
  fold_left
    (fun (tmp : list Arg) value =>
       ((tmp ++ [AStr ("mr-" +:+ fst value)])
          ++ [ABytes (dumps (snd value))])%list)
    data acc
  = (acc ++ mset_args data)%list.
Proof.
  revert acc. induction data as [| kv data IH]; intros acc; cbn.
  - now rewrite app_nil_r.
  - rewrite IH. unfold namespaced. now rewrite <- !app_assoc.
Qed.

Lemma set_multi_plain_transmits (data : list (string * Value))
    (st : State) :
  transmits_one (set_multi data (-1)) st ("MSET", mset_args data).
Proof.
  unfold set_multi. cbn [Z.eqb]. rewrite build_tmp. cbn [app].
  one_command.
Qed.

(** The loop of the ttl branch: the wire grows by a prefix of the
    per-pair writes, the whole list if the loop finishes. *)
Lemma for_each_setex (redis : Conn) (ttl : Z)
    (data : list (string * Value)) (st st' : State) (r : Outcome unit) :
  for_each data (fun value =>
    redis_execute redis "SETEX"
      [AStr ("mr-" +:+ fst value); AInt ttl; ABytes (dumps (snd value))] ;;
    ret tt) st = (r, st') →
  ∃ n, (n ≤ length data)%nat
       ∧ st_wire st' = (st_wire st ++ take n (setex_commands data ttl))%list
       ∧ (∀ u, r = Ok u → n = length data).
Proof.
  revert st. induction data as [| kv data IH]; intros st; cbn.
  - intros [= <- <-]. exists 0%nat. cbn. rewrite app_nil_r. auto.
  - unfold bind at 1. unfold bind at 1. unfold redis_execute at 1.
    destruct (conn_execute redis "SETEX" _ (st_world st)) as [[x | e] w];
      cbn.
    + intros Hrun. destruct (IH _ Hrun) as (n & Hn & Hw & Hok).
      exists (S n). cbn in Hw |- *. rewrite Hw, <- app_assoc. cbn.
      split; [lia |]. split; [reflexivity |].
      intros u Hu. f_equal. eauto.
    + intros [= <- <-]. exists 1%nat. cbn. rewrite take_0.
      split; [lia |]. split; [reflexivity | discriminate].
Qed.

Lemma set_multi_ttl_run (data : list (string * Value))
    (expiration : Z) (st st' : State) (r : Outcome unit) :
  expiration ≠ -1 →
  set_multi data expiration st = (r, st') →
  ∃ n, (n ≤ length data)%nat
       ∧ st_wire st'
         = (st_wire st ++ take n (setex_commands data expiration))%list
       ∧ (∀ u, r = Ok u → n = length data).
Proof.
  intros Hne. unfold set_multi.
  destruct (Z.eqb_spec expiration (-1)) as [E | _]; [contradiction |].
  unfold bind at 1.
  pose proof (get_aio_pool_wire st) as Hw0.
  destruct (get_aio_pool st) as [[pool | e] st1]; cbn in Hw0.
  - unfold async_with.
    destruct (pool_get pool (st_world st1)) as [[redis | e] w1].
    + destruct (for_each data _ (with_world w1 st1)) as [r2 st2] eqn:Hrun.
      destruct (for_each_setex _ _ _ _ _ _ Hrun) as (n & Hn & Hw & Hok).
      intros [= <- <-].
      exists n. cbn in Hw |- *. rewrite Hw, Hw0. auto.
    + intros [= <- <-]. exists 0%nat. cbn. rewrite Hw0, app_nil_r.
      split; [lia |]. split; [reflexivity | discriminate].
  - intros [= <- <-]. exists 0%nat. cbn. rewrite Hw0, app_nil_r.
    split; [lia |]. split; [reflexivity | discriminate].
Qed.

Lemma set_multi_ttl_transmits (data : list (string * Value))
    (expiration : Z) (st : State) :
  expiration ≠ -1 →
  ∃ n, (n ≤ length data)%nat
       ∧ issued (set_multi data expiration) st
         = take n (setex_commands data expiration)
       ∧ (∀ u, (set_multi data expiration st).1 = Ok u → n = length data).
Proof.
  intros Hne.
  destruct (set_multi data expiration st) as [r st'] eqn:Hrun.
  destruct (set_multi_ttl_run _ _ _ _ _ Hne Hrun) as (n & Hn & Hw & Hok).
  exists n. split; [exact Hn |]. split; [| exact Hok].
  apply issued_app. now rewrite Hrun.
Qed.


Lemma not_setex_minus_one_set (key payload : Arg) :
  ¬ setex_minus_one ("SET", [key; payload]).
Proof. intros (k & p & [=]). Qed.

Lemma not_setex_minus_one_mset (args : list Arg) :
  ¬ setex_minus_one ("MSET", args).
Proof. intros (k & p & [=]). Qed.

Lemma not_setex_minus_one_ttl (key payload : Arg) (ttl : Z) :
  ttl ≠ -1 → ¬ setex_minus_one ("SETEX", [key; AInt ttl; payload]).
Proof. intros Hne (k & p & [= _ E _]). contradiction. Qed.


(** C3.  When the driver answers GET for the namespaced key with the
    no-data sentinel, [get] returns the caller's default; on any other
    answer it returns what decoding that answer gives. *)
Theorem get_default_or_decoded (key : string) (default : Value)
    (st st' : State) (data : Reply) :
  execute "GET" [AStr ("mr-" +:+ key)] st = (Ok data, st') →
  (data = RNone → get key default st = (Ok default, st'))
  ∧ (data ≠ RNone → get key default st = (loads data, st')).
Proof.
  intros Hrun. unfold get, bind. rewrite Hrun.
  split; [intros -> | intros Hne]; [reflexivity |].
  destruct data; [contradiction | reflexivity ..].
Qed.


Lemma namespaced_differs (key : string) : "mr-" +:+ key ≠ key.
Proof.
  intros E. apply (f_equal String.length) in E.
  change (S (S (S (String.length key))) = String.length key) in E. lia.
Qed.

Lemma evens_mset_args (data : list (string * Value)) :
  evens (mset_args data) = map namespaced (map fst data).
Proof.
  induction data as [| kv data IH]; cbn; [reflexivity |].
  now rewrite <- IH.
Qed.

End WireProps.

Section GetMultiProps.
Context `{codec : Codec} `{driver : Driver}.

Lemma get_multi_loop_run (keys : list string) (data_list : list Reply)
    (vs : list Value) :
  Forall2 decoded data_list vs →
  ∀ (index : nat) (result : gmap string Value),
    (index + length data_list ≤ length keys)%nat →
    get_multi_loop keys data_list index result
    = Ok (dict_of (zip (drop index keys) vs) result).
Proof.
  induction 1 as [| d v ds vs Hd _ IH]; intros index result Hlen.
  - cbn. destruct (drop index keys); reflexivity.
  - cbn [length] in Hlen.
    destruct (lookup_lt_is_Some_2 keys index) as [key Hkey]; [lia |].
    rewrite (drop_S _ _ _ Hkey). cbn [zip zip_with dict_of fold_left].
    cbn [get_multi_loop]. unfold subscript. rewrite Hkey.
    destruct d; cbn in Hd; rewrite ?Hd; subst;
      (rewrite IH by lia); reflexivity.
Qed.

Lemma dom_dict_of (pairs : list (string * Value))
    (result : gmap string Value) :
  dom (dict_of pairs result) = dom result ∪ list_to_set pairs.*1.
Proof.
  revert result. induction pairs as [| [k v] pairs IH]; intros result.
  - cbn. now rewrite (right_id_L ∅ (∪)).
  - cbn. unfold dict_of in IH. rewrite IH, dom_insert_L.
    rewrite (comm_L (∪) {[k]} (dom result)). now rewrite (assoc_L (∪)).
Qed.

Lemma lookup_dict_of_other (pairs : list (string * Value))
    (result : gmap string Value) (k : string) :
  k ∉ pairs.*1 → dict_of pairs result !! k = result !! k.
Proof.
  revert result. induction pairs as [| [k' v'] pairs IH]; intros result Hk.
  - reflexivity.
  - cbn in Hk |- *. apply not_elem_of_cons in Hk as [Hne Hk].
    unfold dict_of in IH. rewrite IH by exact Hk.
    now apply lookup_insert_ne.
Qed.

Lemma lookup_dict_of_last (pairs : list (string * Value))
    (result : gmap string Value) (i : nat) (k : string) (v : Value) :
  pairs !! i = Some (k, v) →
  (∀ j, (i < j)%nat → pairs.*1 !! j ≠ Some k) →
  dict_of pairs result !! k = Some v.
Proof.
  revert result i.
  induction pairs as [| [k' v'] pairs IH]; intros result i Hi Hlast.
  - discriminate.
  - destruct i as [| i]; cbn in Hi |- *.
    + injection Hi as -> ->.
      fold (dict_of pairs (<[k := v]> result)).
      rewrite lookup_dict_of_other; [apply lookup_insert_eq |].
      intros Hin. apply list_elem_of_lookup in Hin as [j Hj].
      apply (Hlast (S j)); [lia | exact Hj].
    + apply (IH _ i Hi). intros j Hj. apply (Hlast (S j)). lia.
Qed.

(** C6.  Provided the driver answers MGET with a list holding one item
    per requested key, in request order (and every item that is not the
    sentinel decodes), [get_multi] returns a dict whose keys are exactly
    the requested logical keys, each of them once, without the prefix.
    A key is mapped to [None] when its item is the sentinel and to the
    decoded item otherwise (for a key requested several times, the item
    of its last occurrence). *)
Theorem get_multi_covers_requested_keys (keys : list string)
    (st st' : State) (data_list : list Reply) (vs : list Value) :
  execute "MGET" (map (fun value => AStr ("mr-" +:+ value)) keys) st
    = (Ok (RList data_list), st') →
  length data_list = length keys →
  Forall2 decoded data_list vs →
  ∃ result,
    get_multi keys st = (Ok result, st')
    ∧ dom result = list_to_set keys
    ∧ NoDup (map_to_list result).*1
    ∧ (∀ k, k ∈ (map_to_list result).*1 ↔ k ∈ keys)
    ∧ (∀ i k data,
         keys !! i = Some k → data_list !! i = Some data →
         (∀ j, (i < j)%nat → keys !! j ≠ Some k) →
         ∃ v, result !! k = Some v ∧ decoded data v).
Proof.
  intros Hrun Hlen Hdec.
  pose proof (Forall2_length _ _ _ Hdec) as Hvs.
  assert (Hfst : (zip keys vs).*1 = keys) by (apply fst_zip; lia).
  assert (Hdom : dom (dict_of (zip keys vs) ∅) = list_to_set keys).
  { now rewrite dom_dict_of, dom_empty_L, (left_id_L ∅ (∪)), Hfst. }
  exists (dict_of (zip keys vs) ∅).
  split.
  { unfold get_multi, bind. rewrite Hrun. cbn.
    unfold lift. f_equal.
    rewrite (get_multi_loop_run keys data_list vs Hdec 0 ∅) by (cbn; lia).
    reflexivity. }
  split; [exact Hdom |].
  split; [apply NoDup_fst_map_to_list |].
  split.
  { intros k. rewrite list_elem_of_fmap. split.
    - intros ([k' v] & -> & Hin). apply elem_of_map_to_list in Hin.
      apply (elem_of_list_to_set (C := gset string)). rewrite <- Hdom.
      apply elem_of_dom. eauto.
    - intros Hin. apply (elem_of_list_to_set (C := gset string)) in Hin.
      rewrite <- Hdom in Hin. apply elem_of_dom in Hin as [v Hv].
      exists (k, v). split; [reflexivity |].
      now apply elem_of_map_to_list. }
  intros i k data Hk Hdata Hlast.
  destruct (Forall2_lookup_l _ _ _ _ _ Hdec Hdata) as (v & Hv & Hdv).
  exists v. split; [| exact Hdv].
  apply (lookup_dict_of_last _ _ i).
  - now apply lookup_zip_Some.
  - now rewrite Hfst.
Qed.
End GetMultiProps.

(** ** The class in front of the reference server *)

Section ServerProps.
Import MemRedis.
Context `{codec : Codec}.

Abbreviation MState := (State (driver := mem_driver)).

(** One [execute] against the reference server: the command runs on the
    store, uses up one unit of the link budget, and is logged. *)
Lemma mem_execute_run (command : string) (args : list Arg) (st : MState)
    (r : Outcome Reply) (s : gmap string Entry) :
  link_allows 1 (st_world st) →
  run_command command args (store (st_world st)) = (r, s) →
  ∃ st' : MState,
    execute command args st = (r, st')
    ∧ store (st_world st') = s
    ∧ budget (st_world st') = pred <$> budget (st_world st)
    ∧ st_wire st' = (st_wire st ++ [(command, args)])%list.
Proof.
  intros Hlink Hrun.
  destruct st as [self [s0 p0 b0 bud] wire]. cbn in Hlink, Hrun.
  unfold link_allows in Hlink. cbn in Hlink.
  unfold execute, bind, get_aio_pool, bind, read_pool. cbn.
  destruct (_pool self) as [pool |]; cbn;
    (destruct bud as [[| n] |]; [lia | ..]);
    unfold redis_execute, with_world, with_pool, ret; cbn;
    unfold mem_conn_execute; cbn; rewrite Hrun; cbn;
    (destruct r; cbn; eexists; (split; [reflexivity |]); cbn; auto).
Qed.

Lemma link_allows_step (n : nat) (w w' : MemWorld) :
  link_allows (S n) w → budget w' = pred <$> budget w → link_allows n w'.
Proof.
  unfold link_allows. intros H ->.
  destruct (budget w) as [bud |]; cbn; [lia | exact I].
Qed.

Lemma link_allows_weaken (n : nat) (w : MemWorld) :
  link_allows (S n) w → link_allows n w.
Proof. unfold link_allows. destruct (budget w); [lia | auto]. Qed.

(** After a plain [set] the server holds the encoded value under the
    namespaced key, with no expiry attached. *)
Lemma set_plain_stores (key : string) (value : Value) (st : MState) :
  link_allows 1 (st_world st) →
  ∃ st' : MState,
    set key value expiration_default st = (Ok tt, st')
    ∧ store (st_world st')
      = <["mr-" +:+ key := EString (dumps value) None]> (store (st_world st))
    ∧ budget (st_world st') = pred <$> budget (st_world st).
Proof.
  intros Hlink.
  destruct (mem_execute_run "SET"
              [AStr ("mr-" +:+ key); ABytes (dumps value)] st
              (Ok OK) _ Hlink eq_refl)
    as (st' & Hrun & Hstore & Hbud & _).
  exists st'. unfold set, expiration_default. rewrite Z.eqb_refl.
  unfold bind. rewrite Hrun. auto.
Qed.

(** [get] seen from the store: the default for a missing key, the
    decoded payload for a string. *)
Lemma get_from_store (key : string) (default : Value) (st : MState) :
  link_allows 1 (st_world st) →
  (store (st_world st) !! ("mr-" +:+ key) = None →
   (get key default st).1 = Ok default)
  ∧ (∀ payload ttl,
       store (st_world st) !! ("mr-" +:+ key) = Some (EString payload ttl) →
       (get key default st).1 = loads (RBytes payload)).
Proof.
  intros Hlink. split.
  - intros Hnone.
    destruct (mem_execute_run "GET" [AStr ("mr-" +:+ key)] st
                (Ok RNone) (store (st_world st)) Hlink)
      as (st' & Hrun & _).
    { unfold run_command. cbn. now rewrite Hnone. }
    unfold get, bind. now rewrite Hrun.
  - intros payload ttl Hsome.
    destruct (mem_execute_run "GET" [AStr ("mr-" +:+ key)] st
                (Ok (RBytes payload)) (store (st_world st)) Hlink)
      as (st' & Hrun & _).
    { unfold run_command. cbn. now rewrite Hsome. }
    unfold get, bind. now rewrite Hrun.
Qed.

(** C1.  Against the reference server, over a link that carries the two
    commands: [set(k, v)] without a ttl followed by [get(k)] returns
    [v], for every key, value and default, as long as decoding the
    encoding of [v] gives back [v]. *)
Theorem set_then_get_roundtrip (key : string) (value default : Value)
    (st : MState) :
  link_allows 2 (st_world st) →
  loads (RBytes (dumps value)) = Ok value →
  ((set key value expiration_default ;; get key default) st).1 = Ok value.
Proof.
  intros Hlink Hcodec.
  destruct (set_plain_stores key value st (link_allows_weaken _ _ Hlink))
    as (st1 & Hset & Hstore & Hbud).
  unfold bind at 1. rewrite Hset.
  destruct (get_from_store key default st1
              (link_allows_step _ _ _ Hlink Hbud)) as [_ Hget].
  rewrite (Hget (dumps value) None); [exact Hcodec |].
  rewrite Hstore. apply lookup_insert_eq.
Qed.
End ServerProps.

(** ** Batched writes *)

(** A ttl-batched write cut short: the link drops after one command, the
    first pair is stored, the second is not, and the call raises. *)
Lemma set_multi_cut_short :
  let st := Fixture.boot (MemRedis.flaky 1 ∅) in
  let data := [("a", Fixture.text "1"); ("b", Fixture.text "2")] in
  let run := set_multi data 60 st in
  run.1 = Raise (Error "ConnectionClosedError" "Connection lost")
  ∧ MemRedis.store (st_world run.2) !! "mr-a"
    = Some (MemRedis.EString (Fixture.b "1") (Some 60))
  ∧ MemRedis.store (st_world run.2) !! "mr-b" = None.
Proof. vm_compute. auto. Qed.


(** ** Concrete runs *)

Section Runs.
Import MemRedis RawCodec Fixture.

(** The scenarios the specification lists as tests, on the reference
    server. *)
Example delete_then_get :
  ((set "k" (text "v") expiration_default ;; delete "k" ;;
    get "k" (text "gone")) (boot (serving ∅))).1
  = Ok (text "gone").
Proof. reflexivity. Qed.

Example set_multi_then_get_multi :
  ((set_multi [("a", text "1"); ("b", text "2")] expiration_default ;;
    result <- get_multi ["a"; "b"] ;;
    ret (result !! "a", result !! "b")) (boot (serving ∅))).1
  = Ok (Some (text "1"), Some (text "2")).
Proof. reflexivity. Qed.

Example rpush_then_lpop :
  ((rpush "q" (text "x") ;; lpop "q") (boot (serving ∅))).1
  = Ok (text "x").
Proof. reflexivity. Qed.

Example get_multi_long_reply_raises :
  get_multi_loop ["a"] [RNone; RNone] 0 ∅ = Raise IndexError.
Proof. reflexivity. Qed.

Lemma set_then_get_roundtrip_run :
  ((set "greeting" (text "hello") expiration_default ;;
    get "greeting" get_default) (boot (serving ∅))).1
  = Ok (text "hello").
Proof.
  apply (set_then_get_roundtrip (codec := raw_codec));
    [vm_compute; exact I | reflexivity].
Defined.


Lemma get_default_or_decoded_run :
  let empty := boot (serving ∅) in
  let full := boot (serving {["mr-k" := EString (b "v") None]}) in
  get "k" (text "fallback") empty
  = (Ok (text "fallback"), (execute "GET" [AStr "mr-k"] empty).2)
  ∧ get "k" (text "fallback") full
    = (Ok (text "v"), (execute "GET" [AStr "mr-k"] full).2).
Proof.
  split.
  - refine (proj1 (get_default_or_decoded (codec := raw_codec)
                     "k" (text "fallback") _ _ RNone _) eq_refl).
    reflexivity.
  - refine (proj2 (get_default_or_decoded (codec := raw_codec)
                     "k" (text "fallback") _ _ (RBytes (b "v")) _) _).
    + reflexivity.
    + discriminate.
Defined.



Lemma get_multi_covers_requested_keys_run :
  let st := boot (serving {["mr-a" := EString (b "1") None]}) in
  ∃ result,
    get_multi ["a"; "b"] st
    = (Ok result, (execute "MGET" [AStr "mr-a"; AStr "mr-b"] st).2)
    ∧ dom result = list_to_set ["a"; "b"]
    ∧ NoDup (map_to_list result).*1
    ∧ (∀ k, k ∈ (map_to_list result).*1 ↔ k ∈ ["a"; "b"])
    ∧ (∀ i k data,
         ["a"; "b"] !! i = Some k →
         [RBytes (b "1"); RNone] !! i = Some data →
         (∀ j, (i < j)%nat → ["a"; "b"] !! j ≠ Some k) →
         ∃ v, result !! k = Some v ∧ decoded data v).
Proof.
  intros st.
  apply (get_multi_covers_requested_keys (codec := raw_codec)
           ["a"; "b"] st _ [RBytes (b "1"); RNone] [text "1"; None]).
  - reflexivity.
  - reflexivity.
  - repeat constructor.
Defined.


Lemma url_form_run :
  url (__init__ (driver := mem_driver) "10.0.0.7" 6380 2 "s3cret" 1 10 None)
  = "redis://:s3cret@10.0.0.7:6380/2".
Proof.
  apply (proj1 (url_form
                  (__init__ (driver := mem_driver)
                     "10.0.0.7" 6380 2 "s3cret" 1 10 None))).
  discriminate.
Defined.

(** With the empty password the [@] is still there, so the url is not
    [redis://host:port/db]. *)
Lemma url_empty_password_keeps_at :
  _password facade = ""
  ∧ url facade = "redis://@localhost:6379/0"
  ∧ url facade
    ≠ "redis://" +:+ _host facade +:+ ":" +:+ str_of_int (_port facade)
        +:+ "/" +:+ str_of_int (_db facade).
Proof.
  split; [reflexivity |]. split; [reflexivity |].
  vm_compute. discriminate.
Qed.


End Runs.


(** * Beyond single calls: what every method keeps *)

Section FrameProps.
Context `{codec : Codec} `{driver : Driver}.

Lemma respects_ret (R : State → State → Prop) {A} (a : A) :
  Stable R → respects R (ret a).
Proof. intros HR st. apply (stable_refl R HR). Qed.

Lemma respects_lift (R : State → State → Prop) {A} (o : Outcome A) :
  Stable R → respects R (lift o).
Proof. intros HR st. apply (stable_refl R HR). Qed.

Lemma respects_bind (R : State → State → Prop) {A B} (m : M A)
    (k : A → M B) :
  Stable R → respects R m → (∀ a, respects R (k a)) →
  respects R (bind m k).
Proof.
  intros HR Hm Hk st. unfold bind. specialize (Hm st).
  destruct (m st) as [[a | e] st1]; cbn in *; [| exact Hm].
  eapply (stable_trans R HR); [exact Hm | apply Hk].
Qed.

Lemma respects_for_each (R : State → State → Prop) {A} (xs : list A)
    (body : A → M unit) :
  Stable R → (∀ x, respects R (body x)) → respects R (for_each xs body).
Proof.
  intros HR Hbody. induction xs as [| x xs IH]; cbn.
  - now apply respects_ret.
  - apply respects_bind; auto.
Qed.

Lemma respects_execute (R : State → State → Prop) (command : string)
    (args : list Arg) :
  Stable R → respects R (execute command args).
Proof.
  intros HR. unfold execute.
  apply respects_bind; [exact HR | apply (stable_pool R HR) |].
  intros pool. apply (stable_bracket R HR). intros redis.
  apply respects_bind; [exact HR | apply (stable_command R HR) |].
  intros r. now apply respects_ret.
Qed.

Ltac respects_step HR :=
  first
    [ apply respects_execute; exact HR
    | apply respects_ret; exact HR
    | apply respects_lift; exact HR
    | apply (stable_pool _ HR)
    | apply (stable_command _ HR)
    | apply respects_for_each; [exact HR | intros ?]
    | apply (stable_bracket _ HR); intros ?
    | apply respects_bind; [exact HR | | intros ?] ].

Ltac respects_tac HR :=
  repeat (respects_step HR || (progress cbv beta) || case_match).

(** A stable relation is kept by each of the key-taking methods. *)
Lemma respects_call (R : State → State → Prop) (op : KeyOp) :
  Stable R → respects R (call op).
Proof.
  intros HR.
  destruct op; cbn [call];
    unfold set, set_multi, get, get_multi, rpush, lpush, rpop, lpop,
      lrange, lindex, llen, ltrim, delete, delete_multi, increment,
      increment_by, decrement, decrement_by;
    respects_tac HR.
Qed.

Lemma respects_run_all (R : State → State → Prop) (ops : list KeyOp)
    (st : State) :
  Stable R → R st (run_all ops st).
Proof.
  intros HR. revert st. induction ops as [| op ops IH]; intros st; cbn.
  - apply (stable_refl R HR).
  - eapply (stable_trans R HR); [apply (respects_call R op HR) | apply IH].
Qed.

Lemma self_step_trans (a b c : MocaRedis) :
  self_step a b → self_step b c → self_step a c.
Proof.
  intros [-> | (Ha & p & ->)] [-> | (Hb & q & ->)]; unfold self_step; eauto.
Qed.

Lemma self_step_keeps_slot (a b : MocaRedis) (pool : Pool) :
  self_step a b → _pool a = Some pool → b = a.
Proof. intros [-> | (Ha & _)] Hp; [reflexivity | congruence]. Qed.

Lemma object_step_stable : Stable object_step.
Proof.
  split; unfold object_step, respects.
  - intros st. now left.
  - intros st1 st2 st3. apply self_step_trans.
  - intros st. destruct (_pool (st_self st)) as [p |] eqn:Hp.
    + rewrite (get_aio_pool_stored st p Hp). now left.
    + rewrite (get_aio_pool_empty st Hp).
      destruct (create_pool _ _) as [[p | e] w]; cbn; [| now left].
      right. split; [exact Hp |]. now exists p.
  - intros A pool body Hbody st. unfold async_with.
    destruct (pool_get pool (st_world st)) as [[redis | e] w]; cbn;
      [| now left].
    specialize (Hbody redis (with_world w st)).
    destruct (body redis (with_world w st)) as [r st1]. exact Hbody.
  - intros redis command args st. unfold redis_execute.
    destruct (conn_execute _ _ _ _) as [r w]. now left.
Qed.

Lemma ok_fills_pool : ok_fills get_aio_pool.
Proof.
  intros st u Hok. destruct (get_aio_pool st) as [r st'] eqn:Hrun.
  cbn in Hok |- *. subst r. rewrite (get_aio_pool_fills _ _ _ Hrun). eauto.
Qed.

Lemma ok_fills_bind {A B} (m : M A) (k : A → M B) :
  ok_fills m → (∀ a, respects object_step (k a)) → ok_fills (bind m k).
Proof.
  intros Hm Hk st u. unfold bind.
  specialize (Hm st). destruct (m st) as [[a | e] st1]; cbn in *;
    [| discriminate].
  intros _. destruct (Hm a eq_refl) as [p Hp].
  rewrite (self_step_keeps_slot _ _ p (Hk a st1) Hp). eauto.
Qed.

Lemma ok_fills_call (op : KeyOp) : ok_fills (call op).
Proof.
  pose proof object_step_stable as HR.
  destruct op; cbn [call];
    unfold set, set_multi, get, get_multi, rpush, lpush, rpop, lpop,
      lrange, lindex, llen, ltrim, delete, delete_multi, increment,
      increment_by, decrement, decrement_by, execute;
    repeat case_match;
    repeat first
      [ apply ok_fills_pool
      | apply ok_fills_bind; [| intros ?; respects_tac HR] ].
Qed.

(** X1.  On any driver, a key-taking method changes the facade object in
    at most one way: it assigns a pool to the empty slot.  Host, port,
    db, password, pool sizes and ssl context keep their values, a pool
    already in the slot stays, and a call that returns leaves the slot
    assigned.  The same holds over any sequence of calls. *)
Theorem methods_only_fill_the_pool_slot (op : KeyOp) (ops : list KeyOp)
    (st : State) :
  self_step (st_self st) (st_self (call op st).2)
  ∧ (∀ pool, _pool (st_self st) = Some pool →
       st_self (call op st).2 = st_self st)
  ∧ (∀ u, (call op st).1 = Ok u →
       is_Some (_pool (st_self (call op st).2)))
  ∧ self_step (st_self st) (st_self (run_all ops st)).
Proof.
  pose proof (respects_call object_step op object_step_stable st) as H.
  split; [exact H |]. split.
  - intros pool. now apply self_step_keeps_slot.
  - split; [apply ok_fills_call |].
    apply (respects_run_all object_step ops st object_step_stable).
Qed.
End FrameProps.


(** * Errors and edge cases of single methods *)

Section EdgeProps.
Context `{codec : Codec} `{driver : Driver}.

(** X2.  [execute] handles no error and retries nothing.  If the pool
    cannot be created, or hands out no connection, the driver's exception
    is the outcome and no command is sent.  Otherwise the command is sent
    once, the connection is handed back, and the outcome is the driver's
    outcome for that command, whether a reply or an exception. *)
Theorem execute_propagates (command : string) (args : list Arg)
    (st : State) :
  (∀ e w, _pool (st_self st) = None →
     create_pool (pool_args (st_self st)) (st_world st) = (Raise e, w) →
     execute command args st = (Raise e, with_world w st))
  ∧ (∀ pool st1 e w,
       get_aio_pool st = (Ok pool, st1) →
       pool_get pool (st_world st1) = (Raise e, w) →
       execute command args st = (Raise e, with_world w st1))
  ∧ (∀ pool st1 redis w r w',
       get_aio_pool st = (Ok pool, st1) →
       pool_get pool (st_world st1) = (Ok redis, w) →
       conn_execute redis command args w = (r, w') →
       execute command args st
       = (r, {| st_self := st_self st1;
                st_world := pool_release pool redis w';
                st_wire := (st_wire st ++ [(command, args)])%list |})).
Proof.
  split; [| split].
  - intros e w Hp Hc. unfold execute, bind at 1.
    rewrite (get_aio_pool_empty st Hp), Hc. reflexivity.
  - intros pool st1 e w Hpool Hget. unfold execute, bind at 1.
    rewrite Hpool. unfold async_with. now rewrite Hget.
  - intros pool st1 redis w r w' Hpool Hget Hrun.
    pose proof (get_aio_pool_wire st) as Hw. rewrite Hpool in Hw.
    cbn in Hw. unfold execute, bind at 1. rewrite Hpool.
    unfold async_with. rewrite Hget. unfold bind, redis_execute. cbn.
    rewrite Hrun. destruct r; cbn; now rewrite Hw.
Qed.

Lemma loads_each_spec (items : list Reply) (vs : list Value) :
  loads_each items = Ok vs ↔ all_decode items vs.
Proof.
  unfold all_decode. revert vs.
  induction items as [| item items IH]; intros vs; cbn.
  - split.
    + intros [= <-]. constructor.
    + intros H. inversion H. reflexivity.
  - split.
    + destruct (loads item) as [v | e] eqn:Hv; [| discriminate].
      destruct (loads_each items) as [vs' | e] eqn:Hvs; [| discriminate].
      intros [= <-]. constructor; [exact Hv | now apply IH].
    + intros H. inversion H as [| ? v ? vs' Hv Hvs]; subst.
      rewrite Hv. apply IH in Hvs. now rewrite Hvs.
Qed.

Lemma loads_each_first_failure (items : list Reply) (i : nat)
    (item : Reply) (e : Exn) :
  items !! i = Some item → loads item = Raise e →
  (∀ j other, (j < i)%nat → items !! j = Some other →
     ∃ v, loads other = Ok v) →
  loads_each items = Raise e.
Proof.
  revert i. induction items as [| first items IH]; intros i Hi He Hbefore.
  - discriminate.
  - destruct i as [| i]; cbn in Hi |- *.
    + injection Hi as ->. now rewrite He.
    + destruct (Hbefore 0%nat first) as [v Hv]; [lia | reflexivity |].
      rewrite Hv. rewrite (IH i Hi He); [reflexivity |].
      intros j other Hj Hother. apply (Hbefore (S j) other); [lia | exact Hother].
Qed.

(** X3.  When the driver answers LRANGE with a list, [lrange] returns the
    decoded items in the same order, one per item, and returns at all
    only if every item decodes; a [None] item is handed to the decoder
    like any other.  If some item does not decode, the exception of the
    first such item is raised. *)
Theorem lrange_decodes_in_order (key : string) (start end_ : Z)
    (st st' : State) (items : list Reply) :
  execute "LRANGE" [AStr ("mr-" +:+ key); AInt start; AInt end_] st
    = (Ok (RList items), st') →
  (∀ vs, lrange key start end_ st = (Ok vs, st') ↔ all_decode items vs)
  ∧ (∀ vs, all_decode items vs → length vs = length items)
  ∧ (∀ i item e,
       items !! i = Some item → loads item = Raise e →
       (∀ j other, (j < i)%nat → items !! j = Some other →
          ∃ v, loads other = Ok v) →
       lrange key start end_ st = (Raise e, st')).
Proof.
  intros Hrun.
  assert (Hl : lrange key start end_ st = (loads_each items, st')).
  { unfold lrange, bind. rewrite Hrun. reflexivity. }
  split; [| split].
  - intros vs. rewrite Hl, <- loads_each_spec. split.
    + now intros [= ->].
    + now intros ->.
  - intros vs Hvs. symmetry. exact (Forall2_length _ _ _ Hvs).
  - intros i item e Hi He Hbefore. rewrite Hl.
    now rewrite (loads_each_first_failure items i item e).
Qed.

Lemma get_multi_loop_overrun (keys : list string) (data_list : list Reply)
    (vs : list Value) :
  Forall2 decoded data_list vs →
  ∀ (index : nat) (result : gmap string Value),
    (index ≤ length keys)%nat →
    (length keys < index + length data_list)%nat →
    get_multi_loop keys data_list index result = Raise IndexError.
Proof.
  induction 1 as [| d v ds vs Hd _ IH]; intros index result Hidx Hlen.
  - cbn in Hlen. lia.
  - cbn [length] in Hlen. cbn [get_multi_loop]. unfold subscript.
    destruct (keys !! index) as [key |] eqn:Hkey.
    + apply lookup_lt_Some in Hkey.
      destruct d; cbn in Hd; rewrite ?Hd; apply IH; lia.
    + destruct d; cbn in Hd; rewrite ?Hd; reflexivity.
Qed.

(** X4.  [get_multi] pairs keys with reply items by position and trusts
    the reply's length.  If the driver's list is longer than the list of
    keys the method raises [IndexError]; if it is shorter the method
    returns a dict that covers only the first keys, as many as there are
    items.  (Items that are not the sentinel are assumed to decode.) *)
Theorem get_multi_trusts_reply_length (keys : list string)
    (st st' : State) (data_list : list Reply) (vs : list Value) :
  execute "MGET" (map (fun value => AStr ("mr-" +:+ value)) keys) st
    = (Ok (RList data_list), st') →
  Forall2 decoded data_list vs →
  ((length keys < length data_list)%nat →
   get_multi keys st = (Raise IndexError, st'))
  ∧ ((length data_list ≤ length keys)%nat →
     ∃ result,
       get_multi keys st = (Ok result, st')
       ∧ dom result = list_to_set (take (length data_list) keys)).
Proof.
  intros Hrun Hdec.
  assert (Hg : get_multi keys st = (get_multi_loop keys data_list 0 ∅, st')).
  { unfold get_multi, bind. rewrite Hrun. reflexivity. }
  pose proof (Forall2_length _ _ _ Hdec) as Hvs.
  split.
  - intros Hlen. rewrite Hg.
    rewrite (get_multi_loop_overrun keys data_list vs Hdec 0 ∅);
      [reflexivity | lia | exact Hlen].
  - intros Hlen. exists (dict_of (zip keys vs) ∅). split.
    + rewrite Hg.
      rewrite (get_multi_loop_run keys data_list vs Hdec 0 ∅);
        [reflexivity | exact Hlen].
    + rewrite dom_dict_of, dom_empty_L, (left_id_L ∅ (∪)).
      f_equal. rewrite Hvs. clear -Hlen Hvs.
      rewrite Hvs in Hlen. clear Hvs. revert vs Hlen.
      induction keys as [| k keys IH]; intros [| v vs] Hlen; cbn in *;
        try reflexivity; try lia.
      f_equal. apply IH. lia.
Qed.

(** X15.  A pool made by [create_aio_pool] is the one later calls use
    only if the slot was empty.  With a pool already in the slot, the
    next [get_aio_pool] (and so every later command) still gets the old
    pool: the new one is known to the caller of [create_aio_pool] alone. *)
Theorem created_pool_is_shared_only_if_first (st : State) (new : Pool)
    (w : World) :
  create_pool (pool_args (st_self st)) (st_world st) = (Ok new, w) →
  (∀ old, _pool (st_self st) = Some old →
     create_aio_pool st = (Ok new, with_world w st)
     ∧ (create_aio_pool ;; get_aio_pool) st = (Ok old, with_world w st))
  ∧ (_pool (st_self st) = None →
     (create_aio_pool ;; get_aio_pool) st
     = (Ok new, with_pool (Some new) (with_world w st))).
Proof.
  intros Hc. split.
  - intros old Hold.
    assert (Hrun : create_aio_pool st = (Ok new, with_world w st)).
    { rewrite create_aio_pool_run, Hc. now rewrite Hold. }
    split; [exact Hrun |].
    unfold bind at 1. rewrite Hrun.
    now apply get_aio_pool_stored.
  - intros Hnone.
    assert (Hrun : create_aio_pool st
                   = (Ok new, with_pool (Some new) (with_world w st))).
    { rewrite create_aio_pool_run, Hc. now rewrite Hnone. }
    unfold bind at 1. rewrite Hrun.
    now apply get_aio_pool_stored.
Qed.
End EdgeProps.


(** * The class in front of the reference server, continued *)

Section ServerFrameProps.
Import MemRedis.
Context `{codec : Codec}.

Abbreviation SState := (State (driver := mem_driver)).

Lemma same_borrowed_stable : Stable same_borrowed.
Proof.
  split; unfold same_borrowed, respects.
  - reflexivity.
  - intros st1 st2 st3 H12 H23. now rewrite H23.
  - intros st. destruct (_pool (st_self st)) as [p |] eqn:Hp.
    + now rewrite (get_aio_pool_stored st p Hp).
    + rewrite (get_aio_pool_empty st Hp). reflexivity.
  - intros A pool body Hbody st. unfold async_with. cbn.
    specialize (Hbody pool
                  (with_world (mem_pool_get pool (st_world st)).2 st)).
    cbn in Hbody.
    destruct (body pool _) as [r st1]. cbn in Hbody |- *.
    now rewrite Hbody.
  - intros redis command args st. unfold redis_execute. cbn.
    unfold mem_conn_execute.
    destruct (budget (st_world st)) as [[| n] |]; cbn;
      try reflexivity;
      destruct (run_command command args (store (st_world st)));
      reflexivity.
Qed.

Lemma same_potential_stable : Stable same_potential.
Proof.
  split; unfold same_potential, pool_potential, respects.
  - reflexivity.
  - intros st1 st2 st3 H12 H23. now rewrite H23.
  - intros st. destruct (_pool (st_self st)) as [p |] eqn:Hp.
    + rewrite (get_aio_pool_stored st p Hp). cbn. now rewrite Hp.
    + rewrite (get_aio_pool_empty st Hp). cbn. lia.
  - intros A pool body Hbody st. unfold async_with. cbn.
    specialize (Hbody pool
                  (with_world (mem_pool_get pool (st_world st)).2 st)).
    cbn in Hbody.
    destruct (body pool _) as [r st1]. cbn in Hbody |- *. exact Hbody.
  - intros redis command args st. unfold redis_execute. cbn.
    unfold mem_conn_execute.
    destruct (budget (st_world st)) as [[| n] |]; cbn;
      try reflexivity;
      destruct (run_command command args (store (st_world st)));
      reflexivity.
Qed.

(** X5.  Against the reference server every key-taking method hands
    back the connection it borrowed: the number of connections out of the
    pool is the same after the call as before, whether the call returned
    or raised (a rejected command, a dropped link), and so it is after
    any sequence of calls. *)
Theorem connections_are_returned (op : KeyOp) (ops : list KeyOp)
    (st : SState) :
  borrowed (st_world (call op st).2) = borrowed (st_world st)
  ∧ borrowed (st_world (run_all ops st)) = borrowed (st_world st).
Proof.
  split.
  - apply (respects_call same_borrowed op same_borrowed_stable st).
  - apply (respects_run_all same_borrowed ops st same_borrowed_stable).
Qed.

(** X6.  Over any sequence of key-taking calls on one facade object, the
    reference server is asked for at most one pool, and for none when the
    object already holds one: all calls share the pool of the first. *)
Theorem at_most_one_pool_is_created (ops : list KeyOp) (st : SState) :
  (pools (st_world st) ≤ pools (st_world (run_all ops st))
   ≤ S (pools (st_world st)))%nat
  ∧ (∀ pool, _pool (st_self st) = Some pool →
       pools (st_world (run_all ops st)) = pools (st_world st)
       ∧ _pool (st_self (run_all ops st)) = Some pool).
Proof.
  pose proof (respects_run_all same_potential ops st same_potential_stable)
    as Hpot.
  pose proof (respects_run_all object_step ops st object_step_stable)
    as Hobj.
  unfold same_potential, pool_potential in Hpot.
  unfold object_step in Hobj.
  split.
  - destruct Hobj as [Heq | (Hnone & p & Heq)]; rewrite Heq in Hpot.
    + destruct (_pool (st_self st)); lia.
    + rewrite Hnone in Hpot. cbn in Hpot. lia.
  - intros pool Hpool.
    rewrite (self_step_keeps_slot _ _ pool Hobj Hpool) in Hpot |- *.
    rewrite Hpool in Hpot. split; [lia | exact Hpool].
Qed.
End ServerFrameProps.


Section ServerRoundTrips.
Import MemRedis.
Context `{codec : Codec}.

Abbreviation RState := (State (driver := mem_driver)).

Lemma prefix_injective (k1 k2 : string) :
  "mr-" +:+ k1 = "mr-" +:+ k2 → k1 = k2.
Proof.
  intros E. cbv [String.append] in E. now injection E.
Qed.

Lemma get_outcome (key : string) (default : Value) (st : RState) :
  link_allows 1 (st_world st) →
  (get key default st).1 = get_view (store (st_world st)) key default.
Proof.
  intros Hlink. unfold get_view.
  destruct (store (st_world st) !! ("mr-" +:+ key)) as [[payload ttl | items] |]
    eqn:Hk.
  - exact (proj2 (get_from_store key default st Hlink) payload ttl Hk).
  - destruct (mem_execute_run "GET" [AStr ("mr-" +:+ key)] st
                wrongtype (store (st_world st)) Hlink)
      as (st' & Hrun & _).
    { unfold run_command. cbn. now rewrite Hk. }
    unfold get, bind. now rewrite Hrun.
  - exact (proj1 (get_from_store key default st Hlink) Hk).
Qed.

Lemma delete_stores (key : string) (st : RState) :
  link_allows 1 (st_world st) →
  ∃ st' : RState,
    delete key st = (Ok tt, st')
    ∧ store (st_world st') = base.delete ("mr-" +:+ key) (store (st_world st))
    ∧ budget (st_world st') = pred <$> budget (st_world st)
    ∧ st_wire st' = (st_wire st ++ [("DEL", [AStr ("mr-" +:+ key)])])%list.
Proof.
  intros Hlink.
  destruct (mem_execute_run "DEL" [AStr ("mr-" +:+ key)] st
              _ _ Hlink eq_refl)
    as (st' & Hrun & Hstore & Hbud & Hwire).
  exists st'. unfold delete, bind. rewrite Hrun. auto.
Qed.

(** X7.  Distinct logical keys never share a physical key, so writing or
    deleting one key does not change what [get] returns for another. *)
Theorem distinct_keys_do_not_interfere (k1 k2 : string)
    (value default : Value) (st : RState) :
  k1 ≠ k2 →
  link_allows 2 (st_world st) →
  "mr-" +:+ k1 ≠ "mr-" +:+ k2
  ∧ ((set k1 value expiration_default ;; get k2 default) st).1
    = (get k2 default st).1
  ∧ ((delete k1 ;; get k2 default) st).1 = (get k2 default st).1.
Proof.
  intros Hne Hlink.
  assert (Hphys : "mr-" +:+ k1 ≠ "mr-" +:+ k2).
  { intros E. now apply prefix_injective in E. }
  pose proof (link_allows_weaken _ _ Hlink) as Hlink1.
  split; [exact Hphys |]. split.
  - destruct (set_plain_stores k1 value st Hlink1)
      as (st1 & Hset & Hstore & Hbud).
    unfold bind at 1. rewrite Hset.
    rewrite !get_outcome;
      [| exact Hlink1 | exact (link_allows_step _ _ _ Hlink Hbud)].
    unfold get_view. rewrite Hstore. now rewrite lookup_insert_ne.
  - destruct (delete_stores k1 st Hlink1)
      as (st1 & Hdel & Hstore & Hbud & _).
    unfold bind at 1. rewrite Hdel.
    rewrite !get_outcome;
      [| exact Hlink1 | exact (link_allows_step _ _ _ Hlink Hbud)].
    unfold get_view. rewrite Hstore. now rewrite lookup_delete_ne.
Qed.

(** X8.  After [delete(k)], [get(k, d)] returns [d], whatever the key
    held before (nothing, a string, a list). *)
Theorem get_after_delete_is_default (key : string) (default : Value)
    (st : RState) :
  link_allows 2 (st_world st) →
  ((delete key ;; get key default) st).1 = Ok default.
Proof.
  intros Hlink.
  destruct (delete_stores key st (link_allows_weaken _ _ Hlink))
    as (st1 & Hdel & Hstore & Hbud & _).
  unfold bind at 1. rewrite Hdel.
  rewrite get_outcome by exact (link_allows_step _ _ _ Hlink Hbud).
  unfold get_view. rewrite Hstore. now rewrite lookup_delete_eq.
Qed.

Lemma mset_pairs_args (data : list (string * Value)) :
  mset_pairs (mset_args data)
  = Some (map (fun kv => ("mr-" +:+ kv.1, dumps kv.2)) data).
Proof.
  induction data as [| kv data IH]; [reflexivity |].
  cbn [mset_args flat_map app mset_pairs].
  fold (mset_args data). now rewrite IH.
Qed.

Lemma set_multi_plain_stores (data : list (string * Value)) (st : RState) :
  data ≠ [] →
  link_allows 1 (st_world st) →
  ∃ st' : RState,
    set_multi data expiration_default st = (Ok tt, st')
    ∧ store (st_world st')
      = fold_left (fun m kv => <[kv.1 := EString kv.2 None]> m)
          (map (fun kv => ("mr-" +:+ kv.1, dumps kv.2)) data)
          (store (st_world st))
    ∧ budget (st_world st') = pred <$> budget (st_world st).
Proof.
  intros Hdata Hlink.
  destruct (mem_execute_run "MSET" (mset_args data) st (Ok OK)
              (fold_left (fun m kv => <[kv.1 := EString kv.2 None]> m)
                 (map (fun kv => ("mr-" +:+ kv.1, dumps kv.2)) data)
                 (store (st_world st))) Hlink)
    as (st' & Hrun & Hstore & Hbud & _).
  { unfold run_command.
    repeat match goal with
           | |- context [String.eqb ?a ?b] =>
               let v := eval vm_compute in (String.eqb a b) in
               change (String.eqb a b) with v
           end.
    cbv iota. pose proof (mset_pairs_args data) as Hpairs.
    destruct (mset_args data) as [| a l] eqn:Hargs.
    - destruct data; [contradiction | discriminate Hargs].
    - now rewrite Hpairs. }
  exists st'. unfold set_multi, expiration_default. rewrite Z.eqb_refl.
  rewrite build_tmp. cbn [app]. unfold bind. rewrite Hrun. auto.
Qed.

Lemma dict_of_snoc (pairs : list (string * Value)) (k : string) (v : Value)
    (m : gmap string Value) :
  dict_of (pairs ++ [(k, v)]) m = <[k := v]> (dict_of pairs m).
Proof. unfold dict_of. now rewrite fold_left_app. Qed.

Lemma mset_lookup (data : list (string * Value)) (s : gmap string Entry)
    (k : string) :
  fold_left (fun m kv => <[kv.1 := EString kv.2 None]> m)
    (map (fun kv => ("mr-" +:+ kv.1, dumps kv.2)) data) s
    !! ("mr-" +:+ k)
  = match dict_of data ∅ !! k with
    | Some v => Some (EString (dumps v) None)
    | None => s !! ("mr-" +:+ k)
    end.
Proof.
  induction data as [| [k' v'] data IH] using rev_ind; [reflexivity |].
  rewrite map_app, fold_left_app, dict_of_snoc. cbn.
  destruct (decide (k' = k)) as [-> | Hne].
  - now rewrite !lookup_insert_eq.
  - rewrite !lookup_insert_ne; [exact IH | exact Hne |].
    intros E. now apply prefix_injective in E.
Qed.

Lemma dict_of_lookup_in (data : list (string * Value)) (k : string) :
  k ∈ data.*1 → ∃ v, dict_of data ∅ !! k = Some v ∧ (k, v) ∈ data.
Proof.
  induction data as [| [k' v'] data IH] using rev_ind.
  - intros Hin. now apply not_elem_of_nil in Hin.
  - rewrite fmap_app, dict_of_snoc. cbn. intros Hin.
    destruct (decide (k' = k)) as [-> | Hne].
    + exists v'. rewrite lookup_insert_eq. split; [reflexivity |].
      apply elem_of_app. right. now apply list_elem_of_singleton.
    + apply elem_of_app in Hin as [Hin | Hin].
      * destruct (IH Hin) as (v & Hv & Hmem). exists v.
        rewrite lookup_insert_ne by exact Hne. split; [exact Hv |].
        apply elem_of_app. now left.
      * apply list_elem_of_singleton in Hin. congruence.
Qed.

Lemma dict_of_zip_map (f : string → Value) (ks : list string)
    (m : gmap string Value) (k : string) :
  dict_of (zip ks (map f ks)) m !! k
  = if decide (k ∈ ks) then Some (f k) else m !! k.
Proof.
  revert m. induction ks as [| k0 ks IH]; intros m; cbn.
  - destruct (decide (k ∈ [])) as [Hin | _]; [| reflexivity].
    now apply not_elem_of_nil in Hin.
  - fold (dict_of (zip ks (map f ks)) (<[k0 := f k0]> m)). rewrite IH.
    destruct (decide (k ∈ ks)) as [Hin | Hnin].
    + rewrite decide_True; [reflexivity | now apply elem_of_cons; right].
    + destruct (decide (k0 = k)) as [-> | Hne].
      * rewrite lookup_insert_eq.
        rewrite decide_True; [reflexivity | now apply elem_of_cons; left].
      * rewrite lookup_insert_ne by exact Hne.
        rewrite decide_False; [reflexivity |].
        intros Hin. apply elem_of_cons in Hin as [-> | Hin]; contradiction.
Qed.

(** X9.  A batch written by [set_multi] without a ttl is read back by
    [get_multi] on its keys: the returned dict is the batch itself read
    as a dict, each key with the value of its last pair.  The batch must
    not be empty, and decoding must undo encoding on its values. *)
Theorem set_multi_then_get_multi_roundtrip (data : list (string * Value))
    (st : RState) :
  data ≠ [] →
  link_allows 2 (st_world st) →
  (∀ kv, kv ∈ data → codec_roundtrip kv.2) →
  ((set_multi data expiration_default ;; get_multi (map fst data)) st).1
  = Ok (dict_of data ∅).
Proof.
  intros Hdata Hlink Hcodec.
  destruct (set_multi_plain_stores data st Hdata
              (link_allows_weaken _ _ Hlink))
    as (st1 & Hset & Hstore & Hbud).
  unfold bind at 1. rewrite Hset.
  set (keys := map fst data).
  set (f := fun k => default PyNone (dict_of data ∅ !! k)).
  set (args := map (fun value => AStr ("mr-" +:+ value)) keys).
  destruct (mem_execute_run "MGET" args st1
              (Ok (RList (map (mget_item (store (st_world st1))) args)))
              (store (st_world st1))
              (link_allows_step _ _ _ Hlink Hbud))
    as (st2 & Hrun & _).
  { unfold run_command. cbn. subst args keys.
    destruct data; [contradiction | reflexivity]. }
  assert (Hdec : Forall2 decoded
                   (map (mget_item (store (st_world st1))) args)
                   (map f keys)).
  { subst args. rewrite map_map. apply Forall2_fmap, Forall_Forall2_diag.
    apply Forall_forall. intros k Hk.
    destruct (dict_of_lookup_in data k) as (v & Hv & Hmem).
    { exact Hk. }
    unfold mget_item, f. cbn. rewrite Hstore, mset_lookup, Hv. cbn.
    exact (Hcodec (k, v) Hmem). }
  unfold get_multi, bind. fold args. rewrite Hrun. cbn. unfold lift. cbn.
  rewrite (get_multi_loop_run keys _ _ Hdec 0 ∅)
    by (cbn; subst args; rewrite !length_map; lia).
  cbn. f_equal. apply map_eq. intros k.
  rewrite dict_of_zip_map.
  destruct (decide (k ∈ keys)) as [Hin | Hnin].
  - destruct (dict_of_lookup_in data k Hin) as (v & Hv & _).
    unfold f. now rewrite Hv.
  - now rewrite (lookup_dict_of_other data ∅ k Hnin).
Qed.
Ltac dispatch :=
  unfold run_command;
  repeat match goal with
         | |- context [String.eqb ?a ?b] =>
             let v := eval vm_compute in (String.eqb a b) in
             change (String.eqb a b) with v
         end;
  cbv iota.

(** A command sent over a link that has already dropped. *)
Lemma mem_execute_dropped (command : string) (args : list Arg)
    (st : RState) :
  budget (st_world st) = Some 0%nat →
  ∃ st' : RState,
    execute command args st
    = (Raise (Error "ConnectionClosedError" "Connection lost"), st')
    ∧ store (st_world st') = store (st_world st)
    ∧ st_wire st' = (st_wire st ++ [(command, args)])%list.
Proof.
  intros Hbud.
  destruct st as [self [s0 p0 b0 bud] wire]. cbn in Hbud. subst bud.
  unfold execute, bind, get_aio_pool, bind, read_pool. cbn.
  destruct (_pool self) as [pool |]; cbn;
    unfold redis_execute, with_world, with_pool, ret; cbn;
    eexists; (split; [reflexivity |]); cbn; auto.
Qed.

Lemma set_ttl_stores (key : string) (value : Value) (expiration : Z)
    (st : RState) :
  (0 < expiration)%Z →
  link_allows 1 (st_world st) →
  ∃ st' : RState,
    set key value expiration st = (Ok tt, st')
    ∧ store (st_world st')
      = <["mr-" +:+ key := EString (dumps value) (Some expiration)]>
          (store (st_world st))
    ∧ budget (st_world st') = pred <$> budget (st_world st).
Proof.
  intros Hpos Hlink.
  destruct (mem_execute_run "SETEX"
              [AStr ("mr-" +:+ key); AInt expiration; ABytes (dumps value)]
              st (Ok OK)
              (<["mr-" +:+ key := EString (dumps value) (Some expiration)]>
                 (store (st_world st))) Hlink)
    as (st' & Hrun & Hstore & Hbud & _).
  { dispatch. destruct (Z.leb_spec expiration 0); [lia | reflexivity]. }
  exists st'. unfold set.
  destruct (Z.eqb_spec expiration (-1)); [lia |].
  unfold bind. rewrite Hrun. auto.
Qed.


(** X12.  [test_con] writes the probe key and deletes it again.  Over a
    healthy link it returns and leaves no trace: the store is the old one
    without the probe key.  If the link drops between the two commands
    the method raises and the probe key stays behind; if the link is
    already down it raises and the store is untouched. *)
Theorem test_con_probe (random_string : string) (zero : Value)
    (st : RState) :
  let probe := "mr-" +:+ "moca_modules_connection_test_key"
                 +:+ random_string in
  (link_allows 2 (st_world st) →
   (test_con random_string zero st).1 = Ok tt
   ∧ store (st_world (test_con random_string zero st).2)
     = base.delete probe (store (st_world st))
   ∧ st_wire (test_con random_string zero st).2
     = (st_wire st ++ [("SET", [AStr probe; ABytes (dumps zero)]);
                       ("DEL", [AStr probe])])%list)
  ∧ (budget (st_world st) = Some 1%nat →
     (test_con random_string zero st).1
     = Raise (Error "ConnectionClosedError" "Connection lost")
     ∧ store (st_world (test_con random_string zero st).2)
       = <[probe := EString (dumps zero) None]> (store (st_world st)))
  ∧ (budget (st_world st) = Some 0%nat →
     (test_con random_string zero st).1
     = Raise (Error "ConnectionClosedError" "Connection lost")
     ∧ store (st_world (test_con random_string zero st).2)
       = store (st_world st)).
Proof.
  intros probe. unfold test_con. cbv zeta. fold probe.
  split; [| split].
  - intros Hlink.
    destruct (mem_execute_run "SET" [AStr probe; ABytes (dumps zero)] st
                (Ok OK) _ (link_allows_weaken _ _ Hlink) eq_refl)
      as (st1 & Hset & Hstore1 & Hbud1 & Hwire1).
    destruct (mem_execute_run "DEL" [AStr probe] st1 _ _
                (link_allows_step _ _ _ Hlink Hbud1) eq_refl)
      as (st2 & Hdel & Hstore2 & _ & Hwire2).
    unfold set, expiration_default, delete. rewrite Z.eqb_refl.
    unfold bind. fold probe. rewrite Hset. cbn. rewrite Hdel. cbn.
    split; [reflexivity |]. split.
    + rewrite Hstore2, Hstore1. cbn. apply delete_insert_eq.
    + rewrite Hwire2, Hwire1. now rewrite <- app_assoc.
  - intros Hbud.
    assert (Hlink : link_allows 1 (st_world st)).
    { unfold link_allows. now rewrite Hbud. }
    destruct (mem_execute_run "SET" [AStr probe; ABytes (dumps zero)] st
                (Ok OK) _ Hlink eq_refl)
      as (st1 & Hset & Hstore1 & Hbud1 & _).
    rewrite Hbud in Hbud1. cbn in Hbud1.
    destruct (mem_execute_dropped "DEL" [AStr probe] st1 Hbud1)
      as (st2 & Hdel & Hstore2 & _).
    unfold set, expiration_default, delete. rewrite Z.eqb_refl.
    unfold bind. fold probe. rewrite Hset. cbn. rewrite Hdel. cbn.
    split; [reflexivity |]. now rewrite Hstore2, Hstore1.
  - intros Hbud.
    destruct (mem_execute_dropped "SET" [AStr probe; ABytes (dumps zero)]
                st Hbud)
      as (st1 & Hset & Hstore1 & _).
    unfold set, expiration_default, delete. rewrite Z.eqb_refl.
    unfold bind. fold probe. rewrite Hset. cbn. auto.
Qed.

(** What a push leaves under the key, for a key that holds no string. *)
Lemma push_stores (command : string) (at_tail : bool) (key : string)
    (value : Value) (old : list bytes) (st : RState) :
  (command = "RPUSH" ∧ at_tail = true)
  ∨ (command = "LPUSH" ∧ at_tail = false) →
  link_allows 1 (st_world st) →
  (store (st_world st) !! ("mr-" +:+ key) = Some (EList old)
   ∨ (store (st_world st) !! ("mr-" +:+ key) = None ∧ old = [])) →
  ∃ (st' : RState) (n : Z),
    execute command [AStr ("mr-" +:+ key); ABytes (dumps value)] st
    = (Ok (RInt n), st')
    ∧ store (st_world st') !! ("mr-" +:+ key)
      = Some (EList (if at_tail then (old ++ [dumps value])%list
                     else dumps value :: old))
    ∧ budget (st_world st') = pred <$> budget (st_world st).
Proof.
  intros Hcmd Hlink Hold.
  destruct (run_command command
              [AStr ("mr-" +:+ key); ABytes (dumps value)]
              (store (st_world st))) as [r s] eqn:Hrc.
  assert (Hshape :
            ∃ n, r = Ok (RInt n)
                 ∧ s !! ("mr-" +:+ key)
                   = Some (EList (if at_tail
                                  then (old ++ [dumps value])%list
                                  else dumps value :: old))).
  { destruct Hcmd as [[-> ->] | [-> ->]]; revert Hrc; dispatch;
      unfold push; cbn [arg_key arg_payload map rev app];
      (destruct Hold as [Hk | [Hk ->]]; rewrite Hk);
      intros [= <- <-]; eexists; (split; [reflexivity |]);
      now rewrite lookup_insert_eq. }
  destruct Hshape as (n & -> & Hs).
  destruct (mem_execute_run _ _ st _ _ Hlink Hrc)
    as (st' & Hrun & Hstore & Hbud & _).
  exists st', n. rewrite Hstore. auto.
Qed.

Lemma pop_takes (command : string) (at_tail : bool) (key : string)
    (items : list bytes) (x : bytes) (st : RState) :
  (command = "RPOP" ∧ at_tail = true ∧ ∃ front, items = (front ++ [x])%list)
  ∨ (command = "LPOP" ∧ at_tail = false ∧ ∃ back, items = x :: back) →
  link_allows 1 (st_world st) →
  store (st_world st) !! ("mr-" +:+ key) = Some (EList items) →
  (execute command [AStr ("mr-" +:+ key)] st).1 = Ok (RBytes x).
Proof.
  intros Hcmd Hlink Hk.
  destruct (run_command command [AStr ("mr-" +:+ key)]
              (store (st_world st))) as [r s] eqn:Hrc.
  assert (Hr : r = Ok (RBytes x)).
  { destruct Hcmd as [(-> & -> & front & ->) | (-> & -> & back & ->)];
      revert Hrc; dispatch; unfold pop; cbn [arg_key]; rewrite Hk.
    - rewrite rev_app_distr. cbn. now intros [= <- _].
    - now intros [= <- _]. }
  subst r.
  destruct (mem_execute_run _ _ st _ _ Hlink Hrc) as (st' & Hrun & _).
  now rewrite Hrun.
Qed.

(** X10.  Lists behave as a stack at either end and as a queue across
    ends.  On a key that holds a list or nothing, [rpush] then [rpop], and
    [lpush] then [lpop], give back the decoded pushed value; [rpush] then
    [lpop] gives it back on a fresh key, and on a non-empty list gives the
    decoded old head instead. *)
Theorem push_then_pop (key : string) (value : Value) (old : list bytes)
    (st : RState) :
  link_allows 2 (st_world st) →
  (store (st_world st) !! ("mr-" +:+ key) = Some (EList old)
   ∨ (store (st_world st) !! ("mr-" +:+ key) = None ∧ old = [])) →
  ((rpush key value ;; rpop key) st).1 = loads (RBytes (dumps value))
  ∧ ((lpush key value ;; lpop key) st).1 = loads (RBytes (dumps value))
  ∧ (old = [] →
     ((rpush key value ;; lpop key) st).1 = loads (RBytes (dumps value)))
  ∧ (∀ head rest, old = head :: rest →
       ((rpush key value ;; lpop key) st).1 = loads (RBytes head)).
Proof.
  intros Hlink Hold.
  pose proof (link_allows_weaken _ _ Hlink) as Hlink1.
  destruct (push_stores "RPUSH" true key value old st
              (or_introl (conj eq_refl eq_refl)) Hlink1 Hold)
    as (sr & nr & Hrpush & Hsr & Hbr).
  destruct (push_stores "LPUSH" false key value old st
              (or_intror (conj eq_refl eq_refl)) Hlink1 Hold)
    as (sl & nl & Hlpush & Hsl & Hbl).
  pose proof (link_allows_step _ _ _ Hlink Hbr) as Hlr.
  pose proof (link_allows_step _ _ _ Hlink Hbl) as Hll.
  assert (Hbind : ∀ (command : string) (st1 : RState) x,
            (execute command [AStr ("mr-" +:+ key)] st1).1 = Ok (RBytes x) →
            (bind (execute command [AStr ("mr-" +:+ key)])
               (fun data => lift (loads data)) st1).1 = loads (RBytes x)).
  { intros command st1 x. unfold bind.
    destruct (execute command _ st1) as [r st2]. cbn. now intros ->. }
  assert (Hr : rpush key value st = (Ok tt, sr)).
  { unfold rpush, bind. now rewrite Hrpush. }
  assert (Hl : lpush key value st = (Ok tt, sl)).
  { unfold lpush, bind. now rewrite Hlpush. }
  split; [| split; [| split]].
  - unfold bind at 1. rewrite Hr. unfold rpop.
    apply Hbind. eapply (pop_takes "RPOP" true); eauto 10.
  - unfold bind at 1. rewrite Hl. unfold lpop.
    apply Hbind. eapply (pop_takes "LPOP" false); eauto 10.
  - intros ->. unfold bind at 1. rewrite Hr. unfold lpop.
    apply Hbind. eapply (pop_takes "LPOP" false); eauto 10.
  - intros head rest ->. unfold bind at 1. rewrite Hr. unfold lpop.
    apply Hbind. eapply (pop_takes "LPOP" false); eauto 10.
Qed.

(** X11.  An empty batch is not a no-op.  [set_multi] without a ttl,
    [get_multi] and [delete_multi] still send their command, with no
    argument, and raise the server's arity error; only [set_multi] with a
    ttl returns, having sent nothing.  The store is unchanged in all four
    cases. *)
Theorem empty_batches (expiration : Z) (st : RState) :
  link_allows 1 (st_world st) →
  ((set_multi [] expiration_default st).1
   = reply_error "ERR wrong number of arguments for 'mset' command"
   ∧ st_wire (set_multi [] expiration_default st).2
     = (st_wire st ++ [("MSET", [])])%list
   ∧ store (st_world (set_multi [] expiration_default st).2)
     = store (st_world st))
  ∧ ((get_multi [] st).1
     = reply_error "ERR wrong number of arguments for 'mget' command"
     ∧ st_wire (get_multi [] st).2 = (st_wire st ++ [("MGET", [])])%list
     ∧ store (st_world (get_multi [] st).2) = store (st_world st))
  ∧ ((delete_multi [] st).1
     = reply_error "ERR wrong number of arguments for 'del' command"
     ∧ st_wire (delete_multi [] st).2 = (st_wire st ++ [("DEL", [])])%list
     ∧ store (st_world (delete_multi [] st).2) = store (st_world st))
  ∧ (expiration ≠ -1 →
     (set_multi [] expiration st).1 = Ok tt
     ∧ st_wire (set_multi [] expiration st).2 = st_wire st
     ∧ store (st_world (set_multi [] expiration st).2)
       = store (st_world st)).
Proof.
  intros Hlink.
  split; [| split; [| split]].
  - destruct (mem_execute_run "MSET" [] st _ _ Hlink eq_refl)
      as (st' & Hrun & Hstore & _ & Hwire).
    unfold set_multi, expiration_default. rewrite Z.eqb_refl.
    cbn [fold_left]. unfold bind. rewrite Hrun. auto.
  - destruct (mem_execute_run "MGET" [] st _ _ Hlink eq_refl)
      as (st' & Hrun & Hstore & _ & Hwire).
    unfold get_multi. cbn [map]. unfold bind. rewrite Hrun. auto.
  - destruct (mem_execute_run "DEL" [] st _ _ Hlink eq_refl)
      as (st' & Hrun & Hstore & _ & Hwire).
    unfold delete_multi. cbn [map]. unfold bind. rewrite Hrun. auto.
  - intros Hne. unfold set_multi.
    destruct (Z.eqb_spec expiration (-1)); [contradiction |].
    destruct st as [self w wire].
    unfold bind, get_aio_pool, bind, read_pool. cbn.
    destruct (_pool self); cbn; auto.
Qed.

Lemma same_traffic_command (redis : nat) (command : string)
    (args : list Arg) (a b : RState) :
  same_traffic a b →
  (redis_execute redis command args a).1 = (execute command args b).1
  ∧ same_traffic (redis_execute redis command args a).2
      (execute command args b).2.
Proof.
  destruct a as [selfa [sa pa ba buda] wa], b as [selfb [sb pb bb budb] wb].
  unfold same_traffic. cbn. intros (-> & -> & ->).
  unfold execute, bind, get_aio_pool, bind, read_pool, redis_execute. cbn.
  unfold mem_conn_execute. cbn.
  destruct (_pool selfb) as [pool |]; cbn;
    (destruct budb as [[| n] |]; cbn;
     [ auto
     | destruct (run_command command args sb) as [[r | e] s]; cbn; auto
     | destruct (run_command command args sb) as [[r | e] s]; cbn; auto ]).
Qed.

Lemma for_each_cons_run {A} (x : A) (xs : list A) (body : A → M unit)
    (st : RState) :
  for_each (x :: xs) body st
  = match (body x st).1 with
    | Ok _ => for_each xs body (body x st).2
    | Raise e => (Raise e, (body x st).2)
    end.
Proof.
  cbn [for_each]. unfold bind. now destruct (body x st) as [[u | e] st1].
Qed.

Lemma bind_ret_run {A} (m : M A) (st : RState) :
  bind m (fun _ => ret tt) st
  = (match (m st).1 with Ok _ => Ok tt | Raise e => Raise e end, (m st).2).
Proof. unfold bind. now destruct (m st) as [[a | e] st1]. Qed.

Lemma set_with_ttl_unfold (key : string) (value : Value) (expiration : Z) :
  expiration ≠ -1 →
  set key value expiration
  = bind (execute "SETEX"
            [AStr ("mr-" +:+ key); AInt expiration; ABytes (dumps value)])
      (fun _ => ret tt).
Proof.
  intros Hne. unfold set.
  now destruct (Z.eqb_spec expiration (-1)) as [E | _].
Qed.

Lemma same_traffic_loop (redis : nat) (expiration : Z)
    (data : list (string * Value)) (a b : RState) :
  expiration ≠ -1 →
  same_traffic a b →
  (for_each data (fun value =>
     redis_execute redis "SETEX"
       [AStr ("mr-" +:+ fst value); AInt expiration;
        ABytes (dumps (snd value))] ;;
     ret tt) a).1
  = (for_each data (fun kv => set kv.1 kv.2 expiration) b).1
  ∧ same_traffic
      (for_each data (fun value =>
         redis_execute redis "SETEX"
           [AStr ("mr-" +:+ fst value); AInt expiration;
            ABytes (dumps (snd value))] ;;
         ret tt) a).2
      (for_each data (fun kv => set kv.1 kv.2 expiration) b).2.
Proof.
  intros Hne. revert a b.
  induction data as [| kv data IH]; intros a b Hab.
  - cbn. auto.
  - rewrite !for_each_cons_run.
    rewrite (set_with_ttl_unfold kv.1 kv.2 expiration Hne).
    rewrite !bind_ret_run. cbn [fst snd].
    destruct (same_traffic_command redis "SETEX"
                [AStr ("mr-" +:+ kv.1); AInt expiration; ABytes (dumps kv.2)]
                a b Hab) as [Hout Hsim].
    rewrite Hout.
    destruct ((execute "SETEX" _ b).1) as [r | e]; [| auto].
    apply IH. exact Hsim.
Qed.

(** X14.  [set_multi] with a ttl does what calling [set] with that ttl
    on each pair in turn does, stopping at the first failure: same
    outcome, same commands on the wire, same store.  (What differs is
    that the batch borrows one connection for all its writes.) *)
Theorem set_multi_with_ttl_is_repeated_set (data : list (string * Value))
    (expiration : Z) (st : RState) :
  expiration ≠ -1 →
  (set_multi data expiration st).1
  = (for_each data (fun kv => set kv.1 kv.2 expiration) st).1
  ∧ same_traffic (set_multi data expiration st).2
      (for_each data (fun kv => set kv.1 kv.2 expiration) st).2.
Proof.
  intros Hne.
  destruct (set_multi data expiration st) as [r0 st0] eqn:Hrun.
  cbn [fst snd]. revert Hrun. unfold set_multi.
  destruct (Z.eqb_spec expiration (-1)) as [E | _]; [contradiction |].
  unfold bind at 1. unfold async_with.
  destruct (get_aio_pool st) as [[pool | e] st1] eqn:Hpool.
  2: { destruct (_pool (st_self st)) as [p |] eqn:Hp.
       - rewrite (get_aio_pool_stored st p Hp) in Hpool. discriminate.
       - rewrite (get_aio_pool_empty st Hp) in Hpool. discriminate. }
  assert (Hst1 : same_traffic st1 st).
  { destruct (_pool (st_self st)) as [p |] eqn:Hp.
    - rewrite (get_aio_pool_stored st p Hp) in Hpool.
      injection Hpool as _ <-. unfold same_traffic. auto.
    - rewrite (get_aio_pool_empty st Hp) in Hpool.
      injection Hpool as _ <-. unfold same_traffic. auto. }
  cbn [pool_get mem_driver mem_pool_get].
  match goal with
  | |- context [for_each data ?body ?a] =>
      assert (Ha : same_traffic a st) by exact Hst1;
      destruct (same_traffic_loop pool expiration data a st Hne Ha)
        as [Hout Hsim];
      destruct (for_each data body a) as [r st2]
  end.
  cbn in Hout, Hsim. intros [= <- <-]. split; [exact Hout | exact Hsim].
Qed.
End ServerRoundTrips.

(** ** Concrete runs, continued *)

Section MoreRuns.
Import MemRedis RawCodec Fixture.

Lemma methods_only_fill_the_pool_slot_run :
  is_Some (_pool (st_self (call (OpGet "k" None) (boot (serving ∅))).2)).
Proof.
  refine (proj1 (proj2 (proj2
            (methods_only_fill_the_pool_slot (codec := raw_codec)
               (OpGet "k" None) [] (boot (serving ∅))))) tt _).
  reflexivity.
Defined.

Lemma execute_propagates_run :
  (execute "GET" [AStr "mr-k"] (boot (flaky 0 ∅))).1
  = Raise (Error "ConnectionClosedError" "Connection lost").
Proof.
  rewrite (proj2 (proj2 (execute_propagates
                           "GET" [AStr "mr-k"] (boot (flaky 0 ∅))))
             0%nat _ 0%nat _ _ _ eq_refl eq_refl eq_refl).
  reflexivity.
Defined.

Lemma lrange_decodes_in_order_run :
  let st := Scripted.replay [Ok (RList [RBytes (b "x"); RNone])] in
  all_decode (codec := raw_codec) [RBytes (b "x"); RNone] [text "x"; None]
  ∧ lrange (codec := raw_codec) "q" 0 (-1) st
    = (Ok [text "x"; None],
       (execute "LRANGE"
          [AStr "mr-q"; AInt 0; AInt (-1)] st).2).
Proof.
  intros st.
  assert (H : all_decode (codec := raw_codec)
                [RBytes (b "x"); RNone] [text "x"; None]).
  { repeat constructor. }
  split; [exact H |].
  apply (proj1 (lrange_decodes_in_order (codec := raw_codec)
                  (driver := Scripted.scripted_driver)
                  "q" 0 (-1) st _ [RBytes (b "x"); RNone] eq_refl)).
  exact H.
Defined.

Lemma get_multi_trusts_reply_length_run :
  get_multi (codec := raw_codec) ["a"]
    (Scripted.replay [Ok (RList [RNone; RNone])])
  = (Raise IndexError,
     (execute "MGET" [AStr "mr-a"]
        (Scripted.replay [Ok (RList [RNone; RNone])])).2).
Proof.
  apply (proj1 (get_multi_trusts_reply_length (codec := raw_codec)
                  (driver := Scripted.scripted_driver)
                  ["a"] (Scripted.replay [Ok (RList [RNone; RNone])]) _
                  [RNone; RNone] [None; None] eq_refl
                  ltac:(repeat constructor))).
  cbn. lia.
Defined.

Lemma at_most_one_pool_is_created_run :
  let st := (get (codec := raw_codec) "k" None (boot (serving ∅))).2 in
  pools (st_world (run_all [OpDelete "a"; OpRpop "b"] st))
  = pools (st_world st)
  ∧ _pool (st_self (run_all [OpDelete "a"; OpRpop "b"] st)) = Some 0%nat.
Proof.
  intros st.
  exact (proj2 (at_most_one_pool_is_created (codec := raw_codec)
                  [OpDelete "a"; OpRpop "b"] st) 0%nat eq_refl).
Defined.

Lemma distinct_keys_do_not_interfere_run :
  let st := boot (serving {["mr-b" := EString (b "kept") None]}) in
  "mr-" +:+ "a" ≠ "mr-" +:+ "b"
  ∧ ((set "a" (text "new") expiration_default ;; get "b" None) st).1
    = (get "b" None st).1
  ∧ ((delete "a" ;; get "b" None) st).1 = (get "b" None st).1.
Proof.
  intros st.
  apply (distinct_keys_do_not_interfere (codec := raw_codec)
           "a" "b" (text "new") None st).
  - discriminate.
  - vm_compute. exact I.
Defined.

Lemma get_after_delete_is_default_run :
  ((delete "k" ;; get "k" (text "gone"))
     (boot (serving {["mr-k" := EString (b "v") None]}))).1
  = Ok (text "gone").
Proof.
  apply (get_after_delete_is_default (codec := raw_codec)).
  vm_compute. exact I.
Defined.

Lemma set_multi_then_get_multi_roundtrip_run :
  ((set_multi [("a", text "1"); ("b", text "2"); ("a", text "3")]
      expiration_default ;;
    get_multi ["a"; "b"; "a"]) (boot (serving ∅))).1
  = Ok (dict_of [("a", text "1"); ("b", text "2"); ("a", text "3")] ∅).
Proof.
  apply (set_multi_then_get_multi_roundtrip (codec := raw_codec)
           [("a", text "1"); ("b", text "2"); ("a", text "3")]
           (boot (serving ∅))).
  - discriminate.
  - vm_compute. exact I.
  - intros kv Hin.
    repeat (apply elem_of_cons in Hin as [-> | Hin]; [reflexivity |]).
    now apply not_elem_of_nil in Hin.
Defined.

Lemma push_then_pop_run :
  let st := boot (serving {["mr-q" := EList [b "first"]]}) in
  ((rpush "q" (text "x") ;; rpop "q") st).1 = Ok (text "x")
  ∧ ((rpush "q" (text "x") ;; lpop "q") st).1 = Ok (text "first").
Proof.
  intros st.
  destruct (push_then_pop (codec := raw_codec) "q" (text "x") [b "first"] st)
    as (Hstack & _ & _ & Hqueue).
  - vm_compute. exact I.
  - left. reflexivity.
  - split; [exact Hstack | exact (Hqueue (b "first") [] eq_refl)].
Defined.

Lemma empty_batches_run :
  (set_multi (codec := raw_codec) [] expiration_default
     (boot (serving ∅))).1
  = reply_error "ERR wrong number of arguments for 'mset' command"
  ∧ (set_multi (codec := raw_codec) [] 60 (boot (serving ∅))).1 = Ok tt.
Proof.
  destruct (empty_batches (codec := raw_codec) 60 (boot (serving ∅)))
    as ((Hmset & _) & _ & _ & Httl).
  - vm_compute. exact I.
  - split; [exact Hmset |]. apply Httl. lia.
Defined.

Lemma test_con_probe_run :
  (test_con "0123" (text "0")
     (boot (serving {["mr-other" := EString (b "v") None]}))).1
  = Ok tt.
Proof.
  apply (proj1 (test_con_probe (codec := raw_codec) "0123" (text "0")
                  (boot (serving {["mr-other" := EString (b "v") None]})))).
  vm_compute. exact I.
Defined.


Lemma set_multi_with_ttl_is_repeated_set_run :
  (set_multi [("a", text "1"); ("b", text "2")] 60 (boot (flaky 1 ∅))).1
  = (for_each [("a", text "1"); ("b", text "2")]
       (fun kv => set kv.1 kv.2 60) (boot (flaky 1 ∅))).1.
Proof.
  apply (set_multi_with_ttl_is_repeated_set (codec := raw_codec)
           [("a", text "1"); ("b", text "2")] 60 (boot (flaky 1 ∅))).
  lia.
Defined.

Lemma created_pool_is_shared_only_if_first_run :
  let st := (get (codec := raw_codec) "k" None (boot (serving ∅))).2 in
  ((create_aio_pool ;; get_aio_pool) st).1 = Ok 0%nat
  ∧ (create_aio_pool st).1 = Ok 1%nat.
Proof.
  intros st.
  destruct (proj1 (created_pool_is_shared_only_if_first st 1%nat _ eq_refl)
              0%nat eq_refl) as [Hnew Hold].
  split; [now rewrite Hold | now rewrite Hnew].
Defined.
End MoreRuns.

(** * What reaches the driver *)

Section DeliveryProps.
Context `{codec : Codec} `{driver : Driver}.

(** [execute], step by step. *)
Lemma execute_run (command : string) (args : list Arg) (st : State) :
  match get_aio_pool st with
  | (Raise e, st1) => execute command args st = (Raise e, st1)
  | (Ok pool, st1) =>
      match pool_get pool (st_world st1) with
      | (Raise e, w) => execute command args st = (Raise e, with_world w st1)
      | (Ok redis, w) =>
          execute command args st
          = ((conn_execute redis command args w).1,
             {| st_self := st_self st1;
                st_world :=
                  pool_release pool redis
                    (conn_execute redis command args w).2;
                st_wire := (st_wire st ++ [(command, args)])%list |})
      end
  end.
Proof.
  pose proof (get_aio_pool_wire st) as Hw.
  destruct (get_aio_pool st) as [[pool | e] st1] eqn:Hpool.
  - cbn in Hw.
    destruct (pool_get pool (st_world st1)) as [[redis | e] w] eqn:Hget;
      unfold execute; unfold bind at 1; rewrite Hpool;
      unfold async_with; rewrite Hget; [| reflexivity].
    unfold bind, redis_execute. cbn.
    destruct (conn_execute redis command args w) as [[r | e] w']; cbn;
      now rewrite Hw.
  - unfold execute. unfold bind at 1. now rewrite Hpool.
Qed.

Lemma drive_one (redis : Conn) (c : Wire) (w : World) :
  drive redis [c] w
  = {| d_outcome :=
         match (conn_execute redis c.1 c.2 w).1 with
         | Ok _ => Ok tt
         | Raise e => Raise e
         end;
       d_world := (conn_execute redis c.1 c.2 w).2;
       d_sent := 1 |}.
Proof.
  cbn. now destruct (conn_execute redis c.1 c.2 w) as [[r | e] w'].
Qed.

Lemma hands_over_execute (command : string) (args : list Arg)
    (st : State) :
  hands_over (execute command args) st [(command, args)].
Proof.
  pose proof (execute_run command args st) as H. unfold hands_over.
  destruct (get_aio_pool st) as [[pool | e] st1]; [| exact H].
  destruct (pool_get pool (st_world st1)) as [[redis | e] w]; [| exact H].
  rewrite H, drive_one. unfold delivered. cbn.
  split; [reflexivity |].
  intros e.
  destruct (conn_execute redis command args w) as [[r | e'] w']; cbn;
    [discriminate | now intros [= ->]].
Qed.

Lemma hands_over_bind {A B} (m : M A) (k : A → M B) (st : State)
    (cmds : list Wire) :
  hands_over m st cmds → pure_cont k → hands_over (bind m k) st cmds.
Proof.
  unfold hands_over. intros Hm Hk.
  destruct (get_aio_pool st) as [[pool | e] st1].
  - destruct (pool_get pool (st_world st1)) as [[redis | e] w].
    + destruct Hm as [Hst Hraise]. split.
      * now rewrite bind_pure_state.
      * intros e He. apply bind_raise. now apply Hraise.
    + unfold bind. now rewrite Hm.
  - unfold bind. now rewrite Hm.
Qed.

Lemma performs_execute (command : string) (args : list Arg) (st : State) :
  performs (bind (execute command args) (fun _ => ret tt)) st
    [(command, args)].
Proof.
  pose proof (execute_run command args st) as H. unfold performs.
  destruct (get_aio_pool st) as [[pool | e] st1].
  - destruct (pool_get pool (st_world st1)) as [[redis | e] w].
    + unfold bind. rewrite H, drive_one. unfold delivered. cbn.
      now destruct (conn_execute redis command args w) as [[r | e'] w'].
    + unfold bind. now rewrite H.
  - unfold bind. now rewrite H.
Qed.

Lemma performs_hands_over (m : M unit) (st : State) (cmds : list Wire) :
  performs m st cmds → hands_over m st cmds.
Proof.
  unfold performs, hands_over.
  destruct (get_aio_pool st) as [[pool | e] st1]; [| auto].
  destruct (pool_get pool (st_world st1)) as [[redis | e] w]; [| auto].
  intros ->. cbn. auto.
Qed.

(** The loop of the ttl branch is [drive] on the per-pair writes. *)
Lemma for_each_setex_drive (redis : Conn) (ttl : Z)
    (data : list (string * Value)) (st : State) :
  for_each data (fun value =>
    redis_execute redis "SETEX"
      [AStr ("mr-" +:+ fst value); AInt ttl; ABytes (dumps (snd value))] ;;
    ret tt) st
  = (d_outcome (drive redis (setex_commands data ttl) (st_world st)),
     {| st_self := st_self st;
        st_world := d_world (drive redis (setex_commands data ttl)
                               (st_world st));
        st_wire :=
          (st_wire st
           ++ take (d_sent (drive redis (setex_commands data ttl)
                              (st_world st)))
                (setex_commands data ttl))%list |}).
Proof.
  revert st. induction data as [| kv data IH]; intros st.
  - cbn. rewrite app_nil_r. now destruct st.
  - cbn [for_each setex_commands map drive fst snd].
    unfold bind at 1. unfold bind at 1. unfold redis_execute at 1.
    unfold namespaced.
    destruct (conn_execute redis "SETEX" _ (st_world st)) as [[r | e] w];
      cbn.
    + rewrite IH. cbn. now rewrite <- app_assoc.
    + now rewrite take_0.
Qed.

Lemma performs_set_multi_ttl (data : list (string * Value))
    (expiration : Z) (st : State) :
  expiration ≠ -1 →
  performs (set_multi data expiration) st (setex_commands data expiration).
Proof.
  intros Hne. pose proof (get_aio_pool_wire st) as Hw.
  assert (Hrun : set_multi data expiration st
                 = bind get_aio_pool
                     (fun pool =>
                        async_with pool (fun redis =>
                          for_each data (fun value =>
                            redis_execute redis "SETEX"
                              [AStr ("mr-" +:+ fst value); AInt expiration;
                               ABytes (dumps (snd value))] ;;
                            ret tt))) st).
  { unfold set_multi.
    now destruct (Z.eqb_spec expiration (-1)) as [E | _]. }
  unfold performs. rewrite Hrun. clear Hrun.
  destruct (get_aio_pool st) as [[pool | e] st1] eqn:Hpool.
  - cbn in Hw.
    destruct (pool_get pool (st_world st1)) as [[redis | e] w] eqn:Hget;
      unfold bind at 1; rewrite Hpool; unfold async_with; rewrite Hget;
      [| reflexivity].
    rewrite for_each_setex_drive. unfold delivered. cbn. now rewrite Hw.
  - unfold bind at 1. now rewrite Hpool.
Qed.

Lemma performs_set (key : string) (value : Value) (expiration : Z)
    (st : State) :
  performs (set key value expiration) st
    (commands_of (OpSet key value expiration)).
Proof.
  unfold set, commands_of, namespaced.
  destruct (expiration =? -1)%Z; apply performs_execute.
Qed.

Lemma performs_set_multi (data : list (string * Value)) (expiration : Z)
    (st : State) :
  performs (set_multi data expiration) st
    (commands_of (OpSetMulti data expiration)).
Proof.
  unfold commands_of.
  destruct (Z.eqb_spec expiration (-1)) as [-> | Hne].
  - unfold set_multi. rewrite Z.eqb_refl, build_tmp. cbn [app].
    apply performs_execute.
  - now apply performs_set_multi_ttl.
Qed.

(** How far [drive] gets: never beyond the list, at least one command if
    there is one, and short of the end only behind a command that
    raised. *)
Lemma drive_sent (redis : Conn) (cmds : list Wire) (w : World) :
  (d_sent (drive redis cmds w) ≤ length cmds)%nat
  ∧ (cmds ≠ [] → (1 ≤ d_sent (drive redis cmds w))%nat)
  ∧ ((d_sent (drive redis cmds w) < length cmds)%nat →
     ∃ e, d_outcome (drive redis cmds w) = Raise e)
  ∧ (d_outcome (drive redis cmds w) = Ok tt →
     d_sent (drive redis cmds w) = length cmds).
Proof.
  revert w. induction cmds as [| c cmds IH]; intros w; cbn.
  - repeat split; try lia. intros H. contradiction.
  - destruct (conn_execute redis c.1 c.2 w) as [[r | e] w']; cbn.
    + destruct (IH w') as (Hle & _ & Hlt & Hok).
      repeat split; try lia.
      * intros H. apply Hlt. lia.
      * intros H. f_equal. now apply Hok.
    + repeat split; try lia; [eauto | discriminate].
Qed.
End DeliveryProps.

Section KeyDelivery.
Context `{codec : Codec} `{driver : Driver}.

Ltac pure_k :=
  intros ? ?; unfold bind, lift, ret; cbn; repeat case_match; reflexivity.

(** Each key-taking method hands over the commands listed for it. *)
Lemma call_hands_over (op : KeyOp) (st : State) :
  hands_over (call op) st (commands_of op).
Proof.
  destruct op; cbn [call];
    try (unfold commands_of, namespaced;
         repeat (apply hands_over_bind; [| pure_k]);
         apply hands_over_execute).
  - apply performs_hands_over, performs_set.
  - apply performs_hands_over, performs_set_multi.
Qed.

Lemma wire_keys_setex (data : list (string * Value)) (ttl : Z) :
  flat_map wire_keys (setex_commands data ttl)
  = map namespaced (map fst data).
Proof.
  induction data as [| kv data IH]; [reflexivity |].
  cbn. f_equal. exact IH.
Qed.

Lemma commands_of_keys (op : KeyOp) :
  flat_map wire_keys (commands_of op) = map namespaced (logical_keys op).
Proof.
  destruct op; cbn [commands_of logical_keys];
    try reflexivity; try (cbn; now rewrite app_nil_r).
  - now destruct (expiration =? -1)%Z.
  - destruct (expiration =? -1)%Z.
    + cbn. rewrite app_nil_r. apply evens_mset_args.
    + apply wire_keys_setex.
Qed.
End KeyDelivery.

Section ServerDelivery.
Import MemRedis.
Context `{codec : Codec}.

Abbreviation DState := (State (driver := mem_driver)).

(** The reference server always hands out a pool and a connection. *)
Lemma mem_connects (st : DState) :
  ∃ (pool : nat) (st1 : DState),
    get_aio_pool st = (Ok pool, st1)
    ∧ store (st_world st1) = store (st_world st)
    ∧ budget (st_world st1) = budget (st_world st)
    ∧ pool_get pool (st_world st1)
      = (Ok pool,
         {| store := store (st_world st1); pools := pools (st_world st1);
            borrowed := S (borrowed (st_world st1));
            budget := budget (st_world st1) |}).
Proof.
  destruct (_pool (st_self st)) as [p |] eqn:Hp.
  - exists p, st. rewrite (get_aio_pool_stored st p Hp). auto.
  - rewrite (get_aio_pool_empty st Hp). cbn. eauto 10.
Qed.

Lemma mem_hands_over_wire {A} (m : M A) (st : DState) (cmds : list Wire) :
  hands_over m st cmds →
  ∃ n, (n ≤ length cmds)%nat
       ∧ (cmds ≠ [] → (1 ≤ n)%nat)
       ∧ st_wire (m st).2 = (st_wire st ++ take n cmds)%list.
Proof.
  unfold hands_over.
  destruct (mem_connects st) as (pool & st1 & Hpool & _ & _ & Hget).
  rewrite Hpool, Hget. intros [Hst _].
  match type of Hst with
  | context [drive ?r ?c ?w] =>
      destruct (drive_sent (driver := mem_driver) r c w) as (Hle & Hge & _);
      exists (d_sent (drive (driver := mem_driver) r c w))
  end.
  split; [exact Hle |]. split; [exact Hge |]. now rewrite Hst.
Qed.

Lemma mem_one_command_wire {A} (m : M A) (st : DState) (c : Wire) :
  hands_over m st [c] → st_wire (m st).2 = (st_wire st ++ [c])%list.
Proof.
  intros H. destruct (mem_hands_over_wire m st [c] H) as (n & Hle & Hge & Hw).
  cbn in Hle. assert (n = 1%nat) as -> by (specialize (Hge ltac:(discriminate)); lia).
  exact Hw.
Qed.
End ServerDelivery.

Section WriteProps.
Context `{codec : Codec} `{driver : Driver}.

Lemma never_setex_minus_one (key : string) (value : Value)
    (data : list (string * Value)) (expiration : Z) (st : State)
    (c : Wire) :
  c ∈ issued (set key value expiration) st
  ∨ c ∈ issued (set_multi data expiration) st →
  ¬ setex_minus_one c.
Proof.
  intros Hc.
  destruct (Z.eq_dec expiration (-1)) as [-> | Hne].
  - destruct Hc as [Hc | Hc].
    + destruct (transmits_one_issued _ _ _ (set_transmits key value (-1) st))
        as [E | E]; rewrite E in Hc.
      * apply list_elem_of_singleton in Hc as ->.
        apply not_setex_minus_one_set.
      * now apply not_elem_of_nil in Hc.
    + destruct (transmits_one_issued _ _ _
                  (set_multi_plain_transmits data st)) as [E | E];
        rewrite E in Hc.
      * apply list_elem_of_singleton in Hc as ->.
        apply not_setex_minus_one_mset.
      * now apply not_elem_of_nil in Hc.
  - destruct Hc as [Hc | Hc].
    + pose proof (set_transmits key value expiration st) as H.
      destruct (Z.eqb_spec expiration (-1)); [contradiction |].
      destruct (transmits_one_issued _ _ _ H) as [E | E]; rewrite E in Hc.
      * apply list_elem_of_singleton in Hc as ->.
        now apply not_setex_minus_one_ttl.
      * now apply not_elem_of_nil in Hc.
    + destruct (set_multi_ttl_transmits data expiration st Hne)
        as (n & _ & E & _).
      rewrite E in Hc. apply (subseteq_take n) in Hc.
      apply list_elem_of_fmap in Hc as (kv & -> & _).
      now apply not_setex_minus_one_ttl.
Qed.

Lemma performs_set_ttl (key : string) (value : Value) (expiration : Z)
    (st : State) :
  expiration ≠ -1 →
  performs (set key value expiration) st
    [("SETEX", [AStr ("mr-" +:+ key); AInt expiration;
                ABytes (dumps value)])].
Proof.
  intros Hne. pose proof (performs_set key value expiration st) as H.
  unfold commands_of in H.
  now destruct (Z.eqb_spec expiration (-1)) as [E | _].
Qed.

Lemma performs_set_plain (key : string) (value : Value) (st : State) :
  performs (set key value (-1)) st
    [("SET", [AStr ("mr-" +:+ key); ABytes (dumps value)])].
Proof. exact (performs_set key value (-1) st). Qed.

Lemma performs_set_multi_plain (data : list (string * Value))
    (st : State) :
  performs (set_multi data (-1)) st
    [("MSET",
      flat_map (fun kv => [AStr ("mr-" +:+ kv.1); ABytes (dumps kv.2)])
        data)].
Proof. exact (performs_set_multi data (-1) st). Qed.
End WriteProps.

Section ServerWrites.
Import MemRedis.
Context `{codec : Codec}.

Abbreviation WState := (State (driver := mem_driver)).

Lemma run_setex (k : string) (payload : bytes) (ttl : Z)
    (s : gmap string Entry) :
  (0 < ttl)%Z →
  run_command "SETEX" [AStr k; AInt ttl; ABytes payload] s
  = (Ok OK, <[k := EString payload (Some ttl)]> s).
Proof.
  intros Hpos. unfold run_command.
  repeat match goal with
         | |- context [String.eqb ?a ?b] =>
             let v := eval vm_compute in (String.eqb a b) in
             change (String.eqb a b) with v
         end.
  cbv iota. destruct (Z.leb_spec ttl 0); [lia | reflexivity].
Qed.

(** A ttl batch over a link that carries one more command: the first
    pair is written, the second command is lost with the link, no later
    pair is attempted. *)
Lemma set_multi_cut_after_first (k1 k2 : string) (v1 v2 : Value)
    (rest : list (string * Value)) (expiration : Z) (st : WState) :
  (0 < expiration < 2 ^ 31)%Z →
  budget (st_world st) = Some 1%nat →
  (set_multi ((k1, v1) :: (k2, v2) :: rest) expiration st).1
  = Raise (Error "ConnectionClosedError" "Connection lost")
  ∧ store (st_world
             (set_multi ((k1, v1) :: (k2, v2) :: rest) expiration st).2)
    = <["mr-" +:+ k1 := EString (dumps v1) (Some expiration)]>
        (store (st_world st))
  ∧ st_wire (set_multi ((k1, v1) :: (k2, v2) :: rest) expiration st).2
    = (st_wire st
       ++ [("SETEX", [AStr ("mr-" +:+ k1); AInt expiration;
                      ABytes (dumps v1)]);
           ("SETEX", [AStr ("mr-" +:+ k2); AInt expiration;
                      ABytes (dumps v2)])])%list.
Proof.
  intros [Hpos _] Hbud.
  assert (Hne : expiration ≠ -1) by lia.
  pose proof (performs_set_multi_ttl ((k1, v1) :: (k2, v2) :: rest)
                expiration st Hne) as Hrun.
  unfold performs in Hrun.
  destruct (mem_connects st) as (pool & st1 & Hpool & Hstore & Hbud1 & Hget).
  rewrite Hpool, Hget in Hrun. rewrite Hrun. clear Hrun.
  rewrite Hbud1, Hbud, Hstore.
  match goal with
  | |- context [drive ?r ?c ?w] =>
      assert (Hd : drive (driver := mem_driver) r c w
                   = {| d_outcome :=
                          Raise (Error "ConnectionClosedError"
                                   "Connection lost");
                        d_world :=
                          {| store :=
                               <["mr-" +:+ k1 :=
                                   EString (dumps v1) (Some expiration)]>
                                 (store (st_world st));
                             pools := pools (st_world st1);
                             borrowed := S (borrowed (st_world st1));
                             budget := Some 0%nat |};
                        d_sent := 2 |})
  end.
  { cbn [setex_commands map drive fst snd conn_execute mem_driver].
    unfold mem_conn_execute at 1. cbn [budget store]. unfold namespaced.
    rewrite (run_setex _ _ _ _ Hpos). reflexivity. }
  rewrite Hd. cbn. auto.
Qed.
End ServerWrites.

(** * Keys and writes on the wire *)

(** C2.  Every key-taking method, on every driver, does exactly this: it
    gets the pool, borrows a connection and hands the driver the commands
    listed for it in [commands_of]; the only way for a command not to be
    handed over is an exception of the driver before it (no pool, no
    connection, or an earlier command of a ttl batch that raised).  The
    arguments of those commands in key position are the supplied logical
    keys with ["mr-"] in front, in the order supplied, and in no key
    position does the bare logical key stand.  On the reference server,
    which always connects, the first command of every call is on the wire
    afterwards. *)
Theorem keys_are_namespaced :
  (∀ (codec : Codec) (driver : Driver) (op : KeyOp) (st : State),
     hands_over (call op) st (commands_of op)
     ∧ flat_map wire_keys (commands_of op)
       = map (fun k => AStr ("mr-" +:+ k)) (logical_keys op)
     ∧ (∀ i a k,
          flat_map wire_keys (commands_of op) !! i = Some a →
          logical_keys op !! i = Some k →
          a = AStr ("mr-" +:+ k) ∧ a ≠ AStr k)
     ∧ (∀ redis w,
          (commands_of op ≠ [] →
           (1 ≤ d_sent (drive redis (commands_of op) w))%nat)
          ∧ (d_sent (drive redis (commands_of op) w)
             ≤ length (commands_of op))%nat
          ∧ ((d_sent (drive redis (commands_of op) w)
              < length (commands_of op))%nat →
             ∃ e, d_outcome (drive redis (commands_of op) w) = Raise e)))
  ∧ (∀ (codec : Codec) (op : KeyOp)
       (st : State (driver := MemRedis.mem_driver)),
       ∃ n, (n ≤ length (commands_of op))%nat
            ∧ (commands_of op ≠ [] → (1 ≤ n)%nat)
            ∧ st_wire (call op st).2
              = (st_wire st ++ take n (commands_of op))%list).
Proof.
  split.
  - intros codec driver op st.
    pose proof (commands_of_keys op) as Hkeys.
    split; [apply call_hands_over |]. split; [exact Hkeys |]. split.
    + intros i a k Ha Hk. rewrite Hkeys, list_lookup_fmap, Hk in Ha.
      cbn in Ha. injection Ha as <-. split; [reflexivity |].
      intros [= E]. now apply namespaced_differs in E.
    + intros redis w.
      destruct (drive_sent redis (commands_of op) w)
        as (Hle & Hge & Hlt & _).
      auto.
  - intros codec op st.
    apply mem_hands_over_wire, call_hands_over.
Qed.

(** C4.  [set] with a ttl (an [expiration] other than the default [-1])
    is exactly one SETEX handed to the driver, carrying the namespaced key,
    the ttl and the encoded value together; [set] without a ttl is
    exactly one SET of the namespaced key and the encoded value, with no
    expiry argument.  Nothing else is sent, and the command fails to go
    out only when the driver gives no pool or no connection.  On the
    reference server the command is on the wire after every call, the
    plain write is stored with no expiry, and the write with a ttl (in
    the range every server takes) is stored together with its expiry by
    that one command. *)
Theorem set_issues_single_write :
  (∀ (codec : Codec) (driver : Driver) (key : string) (value : Value)
     (expiration : Z) (st : State),
     (expiration ≠ -1 →
      performs (set key value expiration) st
        [("SETEX", [AStr ("mr-" +:+ key); AInt expiration;
                    ABytes (dumps value)])])
     ∧ performs (set key value expiration_default) st
         [("SET", [AStr ("mr-" +:+ key); ABytes (dumps value)])])
  ∧ (∀ (codec : Codec) (key : string) (value : Value) (expiration : Z)
       (st : State (driver := MemRedis.mem_driver)),
       (expiration ≠ -1 →
        st_wire (set key value expiration st).2
        = (st_wire st
           ++ [("SETEX", [AStr ("mr-" +:+ key); AInt expiration;
                          ABytes (dumps value)])])%list)
       ∧ st_wire (set key value expiration_default st).2
         = (st_wire st
            ++ [("SET", [AStr ("mr-" +:+ key); ABytes (dumps value)])])%list
       ∧ (MemRedis.link_allows 1 (st_world st) →
          (set key value expiration_default st).1 = Ok tt
          ∧ MemRedis.store (st_world (set key value expiration_default st).2)
            = <["mr-" +:+ key := MemRedis.EString (dumps value) None]>
                (MemRedis.store (st_world st)))
       ∧ ((0 < expiration < 2 ^ 31)%Z →
          MemRedis.link_allows 1 (st_world st) →
          (set key value expiration st).1 = Ok tt
          ∧ MemRedis.store (st_world (set key value expiration st).2)
            = <["mr-" +:+ key
                := MemRedis.EString (dumps value) (Some expiration)]>
                (MemRedis.store (st_world st)))).
Proof.
  split.
  - intros codec driver key value expiration st. split.
    + apply performs_set_ttl.
    + apply performs_set_plain.
  - intros codec key value expiration st. split; [| split; [| split]].
    + intros Hne. apply mem_one_command_wire, performs_hands_over.
      now apply performs_set_ttl.
    + apply mem_one_command_wire, performs_hands_over, performs_set_plain.
    + intros Hlink.
      destruct (set_plain_stores key value st Hlink)
        as (st' & Hrun & Hstore & _).
      rewrite Hrun. auto.
    + intros [Hpos _] Hlink.
      destruct (set_ttl_stores key value expiration st Hpos Hlink)
        as (st' & Hrun & Hstore & _).
      rewrite Hrun. auto.
Qed.

(** C5.  Without a ttl, [set_multi] is exactly one MSET handed to the
    driver, whose arguments are the namespaced key and the encoded value
    of every pair in input order.  With a ttl it hands the driver one
    SETEX per pair on one connection, in input order, going on after each
    reply and stopping behind the first command that raises: what was
    sent is then an initial part of the per-pair writes, all of them
    exactly when the call returns.  On the reference server a non-empty
    batch without ttl is written whole, while a ttl batch whose link drops
    after one command leaves its first pair written, nothing else, and
    raises. *)
Theorem set_multi_batching :
  (∀ (codec : Codec) (driver : Driver) (data : list (string * Value))
     (st : State),
     performs (set_multi data expiration_default) st
       [("MSET",
         flat_map (fun kv => [AStr ("mr-" +:+ kv.1); ABytes (dumps kv.2)])
           data)])
  ∧ (∀ (codec : Codec) (driver : Driver) (data : list (string * Value))
       (expiration : Z) (st : State),
       expiration ≠ -1 →
       performs (set_multi data expiration) st
         (map (fun kv =>
                 ("SETEX", [AStr ("mr-" +:+ kv.1); AInt expiration;
                            ABytes (dumps kv.2)]))
            data))
  ∧ (∀ (driver : Driver) (redis : Conn) (cmds : list Wire) (w : World),
       (d_sent (drive redis cmds w) ≤ length cmds)%nat
       ∧ (cmds ≠ [] → (1 ≤ d_sent (drive redis cmds w))%nat)
       ∧ ((d_sent (drive redis cmds w) < length cmds)%nat →
          ∃ e, d_outcome (drive redis cmds w) = Raise e)
       ∧ (d_outcome (drive redis cmds w) = Ok tt →
          d_sent (drive redis cmds w) = length cmds))
  ∧ (∀ (codec : Codec) (data : list (string * Value))
       (st : State (driver := MemRedis.mem_driver)),
       data ≠ [] →
       MemRedis.link_allows 1 (st_world st) →
       (set_multi data expiration_default st).1 = Ok tt
       ∧ MemRedis.store (st_world (set_multi data expiration_default st).2)
         = fold_left
             (fun m kv => <[kv.1 := MemRedis.EString kv.2 None]> m)
             (map (fun kv => ("mr-" +:+ kv.1, dumps kv.2)) data)
             (MemRedis.store (st_world st)))
  ∧ (∀ (codec : Codec) (k1 k2 : string) (v1 v2 : Value)
       (rest : list (string * Value)) (expiration : Z)
       (st : State (driver := MemRedis.mem_driver)),
       (0 < expiration < 2 ^ 31)%Z →
       MemRedis.budget (st_world st) = Some 1%nat →
       (set_multi ((k1, v1) :: (k2, v2) :: rest) expiration st).1
       = Raise (Error "ConnectionClosedError" "Connection lost")
       ∧ MemRedis.store
           (st_world
              (set_multi ((k1, v1) :: (k2, v2) :: rest) expiration st).2)
         = <["mr-" +:+ k1 := MemRedis.EString (dumps v1) (Some expiration)]>
             (MemRedis.store (st_world st))
       ∧ st_wire (set_multi ((k1, v1) :: (k2, v2) :: rest) expiration st).2
         = (st_wire st
            ++ [("SETEX", [AStr ("mr-" +:+ k1); AInt expiration;
                           ABytes (dumps v1)]);
                ("SETEX", [AStr ("mr-" +:+ k2); AInt expiration;
                           ABytes (dumps v2)])])%list).
Proof.
  split; [| split; [| split; [| split]]].
  - intros codec driver data st. apply performs_set_multi_plain.
  - intros codec driver data expiration st Hne.
    now apply performs_set_multi_ttl.
  - intros driver redis cmds w. apply drive_sent.
  - intros codec data st Hdata Hlink.
    destruct (set_multi_plain_stores data st Hdata Hlink)
      as (st' & Hrun & Hstore & _).
    rewrite Hrun. auto.
  - intros codec k1 k2 v1 v2 rest expiration st.
    apply set_multi_cut_after_first.
Qed.

(** C10.  An [expiration] of [-1] is the "no ttl" marker of [set] and
    [set_multi]: passed explicitly it is the same call as leaving it out,
    and the call is exactly the plain SET, respectively MSET.  Every other
    integer, zero and the other negatives included, goes out unchanged as
    the ttl of the SETEX the call consists of.  So no call of either
    method puts a SETEX with ttl [-1] on the wire. *)
Theorem minus_one_is_the_no_ttl_marker :
  (∀ (codec : Codec) (driver : Driver) (key : string) (value : Value)
     (data : list (string * Value)) (expiration : Z) (st : State),
     set key value (-1) = set key value expiration_default
     ∧ set_multi data (-1) = set_multi data expiration_default
     ∧ performs (set key value (-1)) st
         [("SET", [AStr ("mr-" +:+ key); ABytes (dumps value)])]
     ∧ performs (set_multi data (-1)) st
         [("MSET",
           flat_map (fun kv => [AStr ("mr-" +:+ kv.1); ABytes (dumps kv.2)])
             data)]
     ∧ (expiration ≠ -1 →
        performs (set key value expiration) st
          [("SETEX", [AStr ("mr-" +:+ key); AInt expiration;
                      ABytes (dumps value)])]
        ∧ performs (set_multi data expiration) st
            (map (fun kv =>
                    ("SETEX", [AStr ("mr-" +:+ kv.1); AInt expiration;
                               ABytes (dumps kv.2)]))
               data))
     ∧ (∀ c, c ∈ issued (set key value expiration) st
             ∨ c ∈ issued (set_multi data expiration) st →
             ¬ setex_minus_one c))
  ∧ (∀ (codec : Codec) (key : string) (value : Value) (expiration : Z)
       (st : State (driver := MemRedis.mem_driver)),
       st_wire (set key value (-1) st).2
       = (st_wire st
          ++ [("SET", [AStr ("mr-" +:+ key); ABytes (dumps value)])])%list
       ∧ (expiration ≠ -1 →
          st_wire (set key value expiration st).2
          = (st_wire st
             ++ [("SETEX", [AStr ("mr-" +:+ key); AInt expiration;
                            ABytes (dumps value)])])%list)).
Proof.
  split.
  - intros codec driver key value data expiration st.
    split; [reflexivity |]. split; [reflexivity |].
    split; [apply performs_set_plain |].
    split; [apply performs_set_multi_plain |].
    split.
    + intros Hne. split.
      * now apply performs_set_ttl.
      * now apply performs_set_multi_ttl.
    + intros c. apply never_setex_minus_one.
  - intros codec key value expiration st. split.
    + apply mem_one_command_wire, performs_hands_over, performs_set_plain.
    + intros Hne. apply mem_one_command_wire, performs_hands_over.
      now apply performs_set_ttl.
Qed.

(** * The pool slot *)

Section PoolCalls.
Context `{driver : Driver}.

Lemma create_aio_pool_resume_full (pool q : Pool) (st : State) :
  _pool (st_self st) = Some q →
  create_aio_pool_resume pool st = (Ok pool, st).
Proof.
  intros Hq. unfold create_aio_pool_resume, bind, read_pool.
  now rewrite Hq.
Qed.

Lemma get_aio_pool_handle (st : State) :
  (∃ p, (get_aio_pool st).1 = Ok p)
  ↔ (is_Some (_pool (st_self st))
     ∨ ∃ p, (create_pool (pool_args (st_self st)) (st_world st)).1 = Ok p).
Proof.
  destruct (_pool (st_self st)) as [q |] eqn:Hq.
  - rewrite (get_aio_pool_stored st q Hq). split; eauto.
  - rewrite (get_aio_pool_empty st Hq).
    destruct (create_pool _ _) as [[p | e] w]; cbn; split.
    + eauto.
    + eauto.
    + intros [p [=]].
    + intros [[p [=]] | [p [=]]].
Qed.

Lemma create_aio_pool_handle (st : State) :
  (∃ p, (create_aio_pool st).1 = Ok p)
  ↔ ∃ p, (create_pool (pool_args (st_self st)) (st_world st)).1 = Ok p.
Proof.
  rewrite create_aio_pool_run.
  destruct (create_pool _ _) as [[p | e] w]; cbn; tauto.
Qed.

Lemma pool_raise_keeps_slot (st : State) (e : Exn) :
  ((get_aio_pool st).1 = Raise e →
   _pool (st_self (get_aio_pool st).2) = _pool (st_self st))
  ∧ ((create_aio_pool st).1 = Raise e →
     _pool (st_self (create_aio_pool st).2) = _pool (st_self st)).
Proof.
  split.
  - destruct (_pool (st_self st)) as [q |] eqn:Hq.
    + now rewrite (get_aio_pool_stored st q Hq).
    + rewrite (get_aio_pool_empty st Hq).
      destruct (create_pool _ _) as [[p | e'] w]; cbn;
        [discriminate | now rewrite Hq].
  - rewrite create_aio_pool_run.
    destruct (create_pool _ _) as [[p | e'] w]; cbn;
      [discriminate | reflexivity].
Qed.

(** C7 (as the code has it).  For a call that runs from its test of the
    slot to its return with no other pool call in between:
    [get_aio_pool] hands back the stored pool without touching anything
    when the slot is full; when the slot is empty it calls [create_pool]
    once and, if that gives a pool, stores and returns it, so that the
    next call returns the same pool.  [create_aio_pool] calls
    [create_pool] on every call and, if that gives a pool, returns it and
    stores it only into an empty slot.  Neither replaces a pool in the
    slot.  A handle is returned exactly when the slot was full (for
    [get_aio_pool]) or [create_pool] gave a pool; otherwise the driver's
    exception is the outcome and the slot is as it was.  Both methods are
    their part before the [await] followed by their part after it, and
    the part of [create_aio_pool] after the [await] keeps a filled slot
    in whatever state it resumes. *)
Theorem pool_slot_is_write_once (st : State) :
  (∀ p, _pool (st_self st) = Some p → get_aio_pool st = (Ok p, st))
  ∧ (_pool (st_self st) = None →
     get_aio_pool st =
       match create_pool (pool_args (st_self st)) (st_world st) with
       | (Ok p, w) => (Ok p, with_pool (Some p) (with_world w st))
       | (Raise e, w) => (Raise e, with_world w st)
       end)
  ∧ (∀ p st', get_aio_pool st = (Ok p, st') →
       _pool (st_self st') = Some p ∧ get_aio_pool st' = (Ok p, st'))
  ∧ create_aio_pool st =
      match create_pool (pool_args (st_self st)) (st_world st) with
      | (Ok p, w) =>
          (Ok p,
           match _pool (st_self st) with
           | None => with_pool (Some p) (with_world w st)
           | Some _ => with_world w st
           end)
      | (Raise e, w) => (Raise e, with_world w st)
      end
  ∧ (∀ q, _pool (st_self st) = Some q →
       _pool (st_self (get_aio_pool st).2) = Some q
       ∧ _pool (st_self (create_aio_pool st).2) = Some q)
  ∧ ((∃ p, (get_aio_pool st).1 = Ok p)
     ↔ (is_Some (_pool (st_self st))
        ∨ ∃ p, (create_pool (pool_args (st_self st)) (st_world st)).1
               = Ok p))
  ∧ ((∃ p, (create_aio_pool st).1 = Ok p)
     ↔ ∃ p, (create_pool (pool_args (st_self st)) (st_world st)).1 = Ok p)
  ∧ (∀ e,
       ((get_aio_pool st).1 = Raise e →
        _pool (st_self (get_aio_pool st).2) = _pool (st_self st))
       ∧ ((create_aio_pool st).1 = Raise e →
          _pool (st_self (create_aio_pool st).2) = _pool (st_self st)))
  ∧ get_aio_pool st
    = (slot <- get_aio_pool_test ;;
       match slot with
       | None => pool <- await_create_pool ;; get_aio_pool_resume pool
       | Some pool => ret pool
       end) st
  ∧ create_aio_pool st
    = (pool <- await_create_pool ;; create_aio_pool_resume pool) st
  ∧ (∀ pool q, _pool (st_self st) = Some q →
       create_aio_pool_resume pool st = (Ok pool, st)).
Proof.
  split; [apply get_aio_pool_stored |].
  split; [apply get_aio_pool_empty |].
  split.
  { intros p st' Hrun.
    pose proof (get_aio_pool_fills st st' p Hrun) as Hp.
    split; [exact Hp | now apply get_aio_pool_stored]. }
  split; [apply create_aio_pool_run |].
  split.
  { intros q Hq. split.
    - now rewrite (get_aio_pool_stored st q Hq).
    - rewrite create_aio_pool_run.
      destruct (create_pool _ _) as [[p | e] w]; cbn; rewrite ?Hq; cbn;
        assumption || reflexivity. }
  split; [apply get_aio_pool_handle |].
  split; [apply create_aio_pool_handle |].
  split; [intros e; apply pool_raise_keeps_slot |].
  split; [reflexivity |].
  split; [reflexivity |].
  intros pool q. apply create_aio_pool_resume_full.
Qed.
End PoolCalls.

(** * Popping from an empty list *)

Section EmptyPop.
Import MemRedis.

Abbreviation PState := (State (driver := mem_driver)).

Lemma run_pop_absent (k : string) (s : gmap string Entry) :
  s !! k = None →
  run_command "RPOP" [AStr k] s = (Ok RNone, s)
  ∧ run_command "LPOP" [AStr k] s = (Ok RNone, s).
Proof.
  intros Hk. split; unfold run_command;
    repeat match goal with
           | |- context [String.eqb ?a ?b] =>
               let v := eval vm_compute in (String.eqb a b) in
               change (String.eqb a b) with v
           end;
    cbv iota; unfold pop; cbn [arg_key]; now rewrite Hk.
Qed.

Lemma execute_pop_absent (key : string) (st : PState) :
  store (st_world st) !! ("mr-" +:+ key) = None →
  link_allows 1 (st_world st) →
  (∃ st', execute "RPOP" [AStr ("mr-" +:+ key)] st = (Ok RNone, st')
          ∧ store (st_world st') = store (st_world st))
  ∧ (∃ st', execute "LPOP" [AStr ("mr-" +:+ key)] st = (Ok RNone, st')
            ∧ store (st_world st') = store (st_world st)).
Proof.
  intros Hk Hlink.
  destruct (run_pop_absent _ _ Hk) as [Hr Hl].
  split.
  - destruct (mem_execute_run _ _ st _ _ Hlink Hr) as (st' & Hrun & Hstore & _).
    eauto.
  - destruct (mem_execute_run _ _ st _ _ Hlink Hl) as (st' & Hrun & Hstore & _).
    eauto.
Qed.
End EmptyPop.

(** C9.  [rpop] and [lpop] send RPOP, respectively LPOP, of the
    namespaced key and pass the answer to the decoder; when the driver
    answers with the no-data sentinel their outcome is the decoder's
    outcome on the sentinel and they add no error of their own.  With
    the decoder as the specification describes it, that outcome is the
    value none, returned and not raised.  On the reference server a key
    under which there is no list gets that answer: both methods return
    none and leave the store as it was. *)
Theorem pop_on_empty_decodes_sentinel :
  (∀ (codec : Codec) (driver : Driver) (key : string) (st st' : State),
     (execute "RPOP" [AStr ("mr-" +:+ key)] st = (Ok RNone, st') →
      rpop key st = (loads RNone, st'))
     ∧ (execute "LPOP" [AStr ("mr-" +:+ key)] st = (Ok RNone, st') →
        lpop key st = (loads RNone, st')))
  ∧ (∀ (V : Type) (none : V) (encode : V → bytes)
       (decode : Reply → Outcome V) (driver : Driver) (key : string)
       (st st' : State),
       (execute "RPOP" [AStr ("mr-" +:+ key)] st = (Ok RNone, st') →
        rpop (codec := spec_codec V none encode decode) key st
        = (Ok none, st'))
       ∧ (execute "LPOP" [AStr ("mr-" +:+ key)] st = (Ok RNone, st') →
          lpop (codec := spec_codec V none encode decode) key st
          = (Ok none, st')))
  ∧ (∀ (V : Type) (none : V) (encode : V → bytes)
       (decode : Reply → Outcome V) (key : string)
       (st : State (driver := MemRedis.mem_driver)),
       MemRedis.store (st_world st) !! ("mr-" +:+ key) = None →
       MemRedis.link_allows 1 (st_world st) →
       ((rpop (codec := spec_codec V none encode decode) key st).1
        = Ok none
        ∧ MemRedis.store
            (st_world
               (rpop (codec := spec_codec V none encode decode) key st).2)
          = MemRedis.store (st_world st))
       ∧ ((lpop (codec := spec_codec V none encode decode) key st).1
          = Ok none
          ∧ MemRedis.store
              (st_world
                 (lpop (codec := spec_codec V none encode decode) key st).2)
            = MemRedis.store (st_world st))).
Proof.
  split; [| split].
  - intros codec driver key st st'.
    split; intros Hrun; unfold rpop, lpop, bind; now rewrite Hrun.
  - intros V none encode decode driver key st st'.
    split; intros Hrun; unfold rpop, lpop, bind; now rewrite Hrun.
  - intros V none encode decode key st Hk Hlink.
    destruct (execute_pop_absent key st Hk Hlink)
      as [(sr & Hr & Hsr) (sl & Hl & Hsl)].
    split; unfold rpop, lpop, bind; [rewrite Hr | rewrite Hl]; cbn; auto.
Qed.

(** * Writes with a ttl on the reference server *)

Section ServerTtl.
Import MemRedis.
Context `{codec : Codec}.

Abbreviation TState := (State (driver := mem_driver)).

Lemma run_setex_rejected (k : string) (payload : bytes) (ttl : Z)
    (s : gmap string Entry) :
  (ttl ≤ 0)%Z →
  ∃ msg, run_command "SETEX" [AStr k; AInt ttl; ABytes payload] s
         = (Raise (Error "ReplyError" msg), s).
Proof.
  intros Hneg. unfold run_command.
  repeat match goal with
         | |- context [String.eqb ?a ?b] =>
             let v := eval vm_compute in (String.eqb a b) in
             change (String.eqb a b) with v
         end.
  cbv iota. destruct (Z.leb_spec ttl 0); [| lia].
  eexists. reflexivity.
Qed.

(** X13.  A ttl in the range every server takes (positive, below
    [2 ^ 31] seconds) does not disturb the round trip: [set(k, v, ttl)]
    followed by [get(k)] returns [v] (the reference server keeps no
    clock).  A ttl that is zero or negative, other than the marker [-1],
    is sent on as it is and the server rejects the write: [set] raises
    the server's reply error, with the server's wording, and the store is
    unchanged.  (The reference server puts no upper bound on a ttl and
    words its errors as one server version does; the statement depends on
    neither.) *)
Theorem set_with_ttl (key : string) (value default : Value)
    (expiration : Z) (st : TState) :
  ((0 < expiration < 2 ^ 31)%Z → link_allows 2 (st_world st) →
   codec_roundtrip value →
   ((set key value expiration ;; get key default) st).1 = Ok value)
  ∧ ((expiration ≤ 0)%Z → expiration ≠ -1 → link_allows 1 (st_world st) →
     (∃ msg, (set key value expiration st).1
             = Raise (Error "ReplyError" msg))
     ∧ store (st_world (set key value expiration st).2)
       = store (st_world st)
     ∧ st_wire (set key value expiration st).2
       = (st_wire st
          ++ [("SETEX", [AStr ("mr-" +:+ key); AInt expiration;
                         ABytes (dumps value)])])%list).
Proof.
  split.
  - intros [Hpos _] Hlink Hcodec.
    destruct (set_ttl_stores key value expiration st Hpos
                (link_allows_weaken _ _ Hlink))
      as (st1 & Hset & Hstore & Hbud).
    unfold bind at 1. rewrite Hset.
    rewrite get_outcome by exact (link_allows_step _ _ _ Hlink Hbud).
    unfold get_view. rewrite Hstore, lookup_insert_eq. exact Hcodec.
  - intros Hneg Hne Hlink.
    destruct (run_setex_rejected ("mr-" +:+ key) (dumps value) expiration
                (store (st_world st)) Hneg) as (msg & Hrc).
    destruct (mem_execute_run _ _ st _ _ Hlink Hrc)
      as (st' & Hrun & Hstore & _ & Hwire).
    unfold set. destruct (Z.eqb_spec expiration (-1)); [contradiction |].
    unfold bind. rewrite Hrun. cbn. eauto.
Qed.
End ServerTtl.

(** * More runs on the reference server *)

Section DeliveryRuns.
Import MemRedis RawCodec Fixture.

(** Two calls of [get_aio_pool] that overlap on a fresh facade: each
    finds the slot empty, each creates a pool; the slot holds pool 0 when
    the first call returns and pool 1 after the second, which replaced
    it.  And with a server that refuses connections neither pool method
    returns a handle. *)
Lemma pool_slot_overlap_and_refusal :
  (overlapping_get_aio_pool (boot (serving ∅))).1
  = Ok (Some 0%nat, 0%nat, 1%nat)
  ∧ _pool (st_self (overlapping_get_aio_pool (boot (serving ∅))).2)
    = Some 1%nat
  ∧ get_aio_pool Refusing.unreachable
    = (Refusing.refused, Refusing.unreachable)
  ∧ create_aio_pool Refusing.unreachable
    = (Refusing.refused, Refusing.unreachable).
Proof.
  repeat split; reflexivity.
Qed.

Lemma pool_slot_is_write_once_run :
  get_aio_pool (boot (serving ∅))
  = (Ok 0%nat,
     with_pool (Some 0%nat)
       (with_world
          {| store := ∅; pools := 1; borrowed := 0; budget := None |}
          (boot (serving ∅)))).
Proof.
  apply (proj1 (proj2 (pool_slot_is_write_once (boot (serving ∅))))).
  reflexivity.
Defined.

Lemma keys_are_namespaced_run :
  st_wire (call (OpDeleteMulti ["a"; "mr-a"]) (boot (serving ∅))).2
  = [("DEL", [AStr "mr-a"; AStr "mr-mr-a"])]
  ∧ AStr "mr-mr-a" = AStr ("mr-" +:+ "mr-a")
  ∧ AStr "mr-mr-a" ≠ AStr "mr-a".
Proof.
  destruct (proj1 keys_are_namespaced raw_codec mem_driver
              (OpDeleteMulti ["a"; "mr-a"]) (boot (serving ∅)))
    as (Hover & _ & Hpos & _).
  split.
  - exact (mem_one_command_wire _ _ _ Hover).
  - apply (Hpos 1%nat (AStr "mr-mr-a") "mr-a"); reflexivity.
Defined.

Lemma set_issues_single_write_run :
  30 ≠ -1
  ∧ st_wire (set "k" (text "v") 30 (boot (serving ∅))).2
    = [("SETEX", [AStr "mr-k"; AInt 30; ABytes (b "v")])]
  ∧ (set "k" (text "v") expiration_default (boot (serving ∅))).1 = Ok tt
  ∧ store (st_world
             (set "k" (text "v") expiration_default (boot (serving ∅))).2)
    = <["mr-k" := EString (b "v") None]> ∅.
Proof.
  destruct (proj2 set_issues_single_write raw_codec "k" (text "v") 30
              (boot (serving ∅))) as (Httl & _ & Hplain & _).
  split; [lia |]. split.
  - apply Httl. lia.
  - apply Hplain. exact I.
Defined.

Lemma set_multi_batching_run :
  (0 < 60 < 2 ^ 31)%Z
  ∧ (set_multi [("a", text "1"); ("b", text "2"); ("c", text "3")] 60
       (boot (flaky 1 ∅))).1
    = Raise (Error "ConnectionClosedError" "Connection lost")
  ∧ store (st_world
             (set_multi [("a", text "1"); ("b", text "2"); ("c", text "3")]
                60 (boot (flaky 1 ∅))).2)
    = <["mr-a" := EString (b "1") (Some 60)]> ∅
  ∧ st_wire (set_multi [("a", text "1"); ("b", text "2"); ("c", text "3")]
               60 (boot (flaky 1 ∅))).2
    = [("SETEX", [AStr "mr-a"; AInt 60; ABytes (b "1")]);
       ("SETEX", [AStr "mr-b"; AInt 60; ABytes (b "2")])].
Proof.
  split; [lia |].
  apply (proj2 (proj2 (proj2 (proj2 set_multi_batching))) raw_codec
           "a" "b" (text "1") (text "2") [("c", text "3")] 60
           (boot (flaky 1 ∅))).
  - lia.
  - reflexivity.
Defined.

Lemma minus_one_is_the_no_ttl_marker_run :
  0 ≠ -1
  ∧ st_wire (set "k" (text "v") (-1) (boot (serving ∅))).2
    = [("SET", [AStr "mr-k"; ABytes (b "v")])]
  ∧ st_wire (set "k" (text "v") 0 (boot (serving ∅))).2
    = [("SETEX", [AStr "mr-k"; AInt 0; ABytes (b "v")])].
Proof.
  destruct (proj2 minus_one_is_the_no_ttl_marker raw_codec "k" (text "v") 0
              (boot (serving ∅))) as (Hplain & Httl).
  split; [lia |]. split.
  - exact Hplain.
  - apply Httl. lia.
Defined.

Lemma pop_on_empty_decodes_sentinel_run :
  (rpop (codec := spec_codec (option bytes) None raw_dumps raw_loads)
     "queue" (boot (serving ∅))).1 = Ok None
  ∧ (lpop (codec := spec_codec (option bytes) None raw_dumps raw_loads)
       "queue" (boot (serving ∅))).1 = Ok None.
Proof.
  destruct (proj2 (proj2 pop_on_empty_decodes_sentinel)
              (option bytes) None raw_dumps raw_loads "queue"
              (boot (serving ∅)) (lookup_empty _) I)
    as ((Hr & _) & (Hl & _)).
  split; [exact Hr | exact Hl].
Defined.

Lemma set_with_ttl_run :
  ((set "k" (text "v") 30 ;; get "k" None) (boot (serving ∅))).1
  = Ok (text "v")
  ∧ (∃ msg, (set "k" (text "v") 0 (boot (serving ∅))).1
            = Raise (Error "ReplyError" msg))
  ∧ store (st_world (set "k" (text "v") 0 (boot (serving ∅))).2) = ∅.
Proof.
  destruct (set_with_ttl (codec := raw_codec) "k" (text "v") None 30
              (boot (serving ∅))) as [Hpos _].
  destruct (set_with_ttl (codec := raw_codec) "k" (text "v") None 0
              (boot (serving ∅))) as [_ Hzero].
  split.
  - apply Hpos; [lia | exact I | reflexivity].
  - destruct Hzero as (Hmsg & Hstore & _); [lia | lia | exact I |].
    split; [exact Hmsg | exact Hstore].
Defined.
End DeliveryRuns.
